(** * gnss_frequencies: frequency and aliasing engine

    A shallow embedding of [gnss_frequencies.py] (cpd/period conversion,
    alias folding, the orbital period formula, the harmonic generator, the
    peak classifier, the signals table, the catalogue assembly and its
    summary) and of the range search of [examples/basic_usage.py], with the
    properties the specification states and further properties of the code.

    The Python code computes on [float] and [int].  It is translated once,
    over an interface [PyFloat] of the float operations it uses, and run on
    two instances:

    - [Exact.xreal]: rationals extended with the infinities and NaN, every
      operation exact.  All finite binary64 values are rationals, so this is
      the code with rounding and overflow removed; the statements quantified
      over all frequencies or periods are proved here.
    - [Binary64]: the kernel's IEEE 754 binary64 numbers, i.e. CPython's
      [float] itself; concrete calls are evaluated here bit for bit, and a
      statement that rounding breaks is refuted here.

    Exceptions raised by the arithmetic ([ZeroDivisionError], [OverflowError],
    [ValueError]) or by a missing key ([KeyError]) are values of an error
    monad. *)

From Stdlib Require Import ZArith QArith Qabs Qround Qreduction Lqa Lia.
From Stdlib Require Import Bool List String Ascii DecimalString.
From Stdlib Require Import Sorted Permutation DecimalPos DecimalZ.
From Stdlib Require Import Floats.
Import ListNotations.

Set Implicit Arguments.
Local Open Scope Z_scope.

(* ================================================================== *)
(** ** Exceptions *)

Inductive exn : Set :=
| ZeroDivisionError
| OverflowError
| ValueError
| KeyError.

Inductive result (A : Type) : Type :=
| Ok (a : A)
| Raise (e : exn).

Arguments Ok {A} a.
Arguments Raise {A} e.

Definition bind {A B : Type} (r : result A) (k : A -> result B) : result B :=
  match r with
  | Ok a => k a
  | Raise e => Raise e
  end.

Declare Scope py_scope.
Delimit Scope py_scope with py.
Notation "x <- c ;; k" := (bind c (fun x => k))
  (at level 61, c at next level, right associativity) : py_scope.
Local Open Scope py_scope.

(** [for x in xs: acc = body(acc, x)], stopping at the first exception. *)
Fixpoint foldM {A S : Type} (body : S -> A -> result S) (xs : list A) (s : S)
  : result S :=
  match xs with
  | [] => Ok s
  | x :: xs' => s' <- body s x ;; foldM body xs' s'
  end.

(* ================================================================== *)
(** ** Python containers and formatting *)

(** [range(lo, hi)]: the integers [lo], [lo+1], ..., [hi-1]. *)
Fixpoint range_from (lo : Z) (n : nat) : list Z :=
  match n with
  | O => []
  | S n' => lo :: range_from (lo + 1) n'
  end.

Definition range (lo hi : Z) : list Z := range_from lo (Z.to_nat (hi - lo)).

(** [str(z)] and the format [{z:+d}]. *)
Definition str (z : Z) : string := NilZero.string_of_int (Z.to_int z).

Definition str_signed (z : Z) : string :=
  if z <? 0 then str z else ("+" ++ str z)%string.

(** A [dict] keeps its keys in insertion order; assigning to a key that is
    present replaces the value in place. *)
Section Dict.
Variables (K V : Type) (keq : K -> K -> bool).

Definition dict : Type := list (K * V).

Fixpoint dict_get (k : K) (d : dict) : option V :=
  match d with
  | [] => None
  | (k', v) :: d' => if keq k k' then Some v else dict_get k d'
  end.

Fixpoint dict_set (k : K) (v : V) (d : dict) : dict :=
  match d with
  | [] => [(k, v)]
  | (k', v') :: d' =>
      if keq k k' then (k', v) :: d' else (k', v') :: dict_set k v d'
  end.

Fixpoint dict_del (k : K) (d : dict) : dict :=
  match d with
  | [] => []
  | (k', v') :: d' => if keq k k' then d' else (k', v') :: dict_del k d'
  end.

Definition dict_keys (d : dict) : list K := map fst d.
End Dict.

(* ================================================================== *)
(** ** The float operations the code uses *)

Class PyFloat (F : Type) : Type := {
  (** a float literal, or a small [int] constant coerced in mixed arithmetic *)
  lit : Q -> F;
  (** [float('inf')] *)
  inf : F;
  (** the coercion of an [int] operand in [int op float]; a too large [int]
      raises [OverflowError] *)
  of_int : Z -> result F;
  fadd : F -> F -> F;
  fsub : F -> F -> F;
  fmul : F -> F -> F;
  (** [x / y] raises [ZeroDivisionError] on a zero divisor *)
  fdiv : F -> F -> result F;
  fabs : F -> F;
  feqb : F -> F -> bool;
  fltb : F -> F -> bool;
  fleb : F -> F -> bool;
  (** [math.floor(x)] and [round(x)] give an [int]; both raise on an
      infinity ([OverflowError]) and on NaN ([ValueError]) *)
  ffloor : F -> result Z;
  fround : F -> result Z
}.

(** Round to the nearest integer, ties to the even one, of [n/d]. *)
Definition round_half_even (n : Z) (d : positive) : Z :=
  let q := n / Zpos d in
  let r := n mod Zpos d in
  match 2 * r ?= Zpos d with
  | Lt => q
  | Gt => q + 1
  | Eq => if Z.even q then q else q + 1
  end.

(** A value stored in the catalogue: a number, or a nested [dict] whose keys
    are strings or (for the harmonics) integers. *)
Inductive key : Set :=
| KStr (s : string)
| KInt (z : Z).

Definition key_eqb (a b : key) : bool :=
  match a, b with
  | KStr s, KStr t => String.eqb s t
  | KInt x, KInt y => Z.eqb x y
  | _, _ => false
  end.

#[warnings="-register-all"] Inductive pyval (F : Type) : Type :=
| VNum (x : F)
| VDict (d : list (key * pyval F)).

Arguments VNum {F} x.
Arguments VDict {F} d.

(* ================================================================== *)
(** ** The code *)

Section Code.
Context {F : Type} `{PyFloat F}.

(** Unit conversion. *)
Definition cpd_to_days (frequency_cpd : F) : result F :=
  if feqb frequency_cpd (lit 0) then Ok inf
  else fdiv (lit 1) frequency_cpd.

Definition days_to_cpd (period_days : F) : result F :=
  if feqb period_days (lit 0) then Ok inf
  else fdiv (lit 1) period_days.

(** Alias arithmetic. *)
Definition calculate_alias_frequency (freq reference_freq : F) : result F :=
  if feqb reference_freq (lit 0) then
    r <- fround freq ;;
    r' <- of_int r ;;
    Ok (fabs (fsub freq r'))
  else
    ratio <- fdiv freq reference_freq ;;
    r <- fround ratio ;;
    r' <- of_int r ;;
    Ok (fabs (fsub freq (fmul r' reference_freq))).

Definition calculate_subdaily_aliasing (freq_cpd sampling_interval_hours : F)
  : result F :=
  T <- fdiv sampling_interval_hours (lit 24) ;;
  rate <- fdiv (lit 1) T ;;
  fl <- ffloor (fadd (fmul freq_cpd T) (lit 0.5)) ;;
  fl' <- of_int fl ;;
  Ok (fabs (fsub freq_cpd (fmul rate fl'))).

(** Orbital period formula. *)
Definition calculate_orbital_period (n m : Z) (T_S T_E : F) : result F :=
  if (n =? 0) && (m =? 0) then Ok inf
  else
    n' <- of_int n ;;
    a <- fdiv n' T_E ;;
    m' <- of_int m ;;
    b <- fdiv m' T_S ;;
    let denominator := fadd a b in
    if fltb (fabs denominator) (lit 1e-10) then Ok inf
    else
      q <- fdiv (lit 1) denominator ;;
      Ok (fabs q).

(** Harmonic generator: [{i: i * base_freq for i in range(1, max + 1)}]. *)
Definition harmonics (base_freq : F) (max_harmonic : Z) : result (dict Z F) :=
  foldM (fun d i => i' <- of_int i ;;
                    Ok (dict_set Z.eqb i (fmul i' base_freq) d))
        (range 1 (max_harmonic + 1)) [].

Definition calculate_draconitic_harmonics := harmonics.
Definition calculate_annual_harmonics := harmonics.

(** Peak classifier. *)
Definition peaks_t : Type := dict string (dict string F).

Definition empty_peaks : peaks_t :=
  [("8d_peaks", []); ("4d_peaks", []); ("2-7d_peaks", []);
   ("2d_peaks", []); ("1d_peaks", [])]%string.

(** The [if]/[elif] chain on [period_days]: the band of the first test
    that holds. *)
Definition band_of (period_days : F) : option string :=
  if fltb (lit 6) period_days && fleb period_days (lit 12)
  then Some "8d_peaks"%string
  else if fltb (lit 3) period_days && fleb period_days (lit 6)
  then Some "4d_peaks"%string
  else if fltb (lit 2) period_days && fleb period_days (lit 3.5)
  then Some "2-7d_peaks"%string
  else if fltb (lit 1.5) period_days && fleb period_days (lit 2.5)
  then Some "2d_peaks"%string
  else if fltb (lit 0.5) period_days && fleb period_days (lit 1.5)
  then Some "1d_peaks"%string
  else None.

(** [f"{mult}f_u{k:+d}f_d"] *)
Definition peak_label (mult k : Z) : string :=
  (str mult ++ "f_u" ++ str_signed k ++ "f_d")%string.

(** [peaks[band][label] = v] *)
Definition peaks_assign (band label : string) (v : F) (peaks : peaks_t)
  : result peaks_t :=
  match dict_get String.eqb band peaks with
  | Some d =>
      Ok (dict_set String.eqb band (dict_set String.eqb label v d) peaks)
  | None => Raise KeyError
  end.

(** [alias_freq] and [period_days] of one combined frequency. *)
Definition peak_alias (combined_freq : F) : result F :=
  r <- fround combined_freq ;;
  r' <- of_int r ;;
  Ok (fabs (fsub combined_freq r')).

Definition peak_period (alias_freq : F) : result F :=
  if fltb (lit 0) alias_freq then fdiv (lit 1) alias_freq else Ok inf.

(** The body of the inner loop, for one [k]. *)
Definition peak_step (draconitic_freq base_freq : F) (mult : Z)
           (peaks : peaks_t) (k : Z) : result peaks_t :=
  k' <- of_int k ;;
  let combined_freq := fadd base_freq (fmul k' draconitic_freq) in
  alias_freq <- peak_alias combined_freq ;;
  period_days <- peak_period alias_freq ;;
  match band_of period_days with
  | Some band => peaks_assign band (peak_label mult k) alias_freq peaks
  | None => Ok peaks
  end.

(** The two nested loops. *)
Definition collect_peaks (sun_arg_lat_freq draconitic_freq : F)
           (harmonics_range : Z * Z) : result peaks_t :=
  let '(min_harm, max_harm) := harmonics_range in
  foldM (fun peaks mult =>
           mult' <- of_int mult ;;
           let base_freq := fmul mult' sun_arg_lat_freq in
           foldM (peak_step draconitic_freq base_freq mult)
                 (range min_harm max_harm) peaks)
        (range 1 5) empty_peaks.

(** [sorted(items, key=lambda x: x[1], reverse=True)]: a stable sort,
    largest value first, equal values in their original order. *)
Fixpoint insert_desc (x : string * F) (l : list (string * F))
  : list (string * F) :=
  match l with
  | [] => [x]
  | y :: l' => if fltb (snd x) (snd y) then y :: insert_desc x l'
               else x :: y :: l'
  end.

Fixpoint sorted_desc (l : list (string * F)) : list (string * F) :=
  match l with
  | [] => []
  | x :: l' => insert_desc x (sorted_desc l')
  end.

(** [dict(items)] *)
Definition dict_of_items (l : list (string * F)) : dict string F :=
  fold_left (fun d kv => dict_set String.eqb (fst kv) (snd kv) d) l [].

Definition top10 (d : dict string F) : dict string F :=
  dict_of_items (firstn 10 (sorted_desc d)).

(** The closing loop over [list(peaks.keys())]. *)
Definition prune_step (peaks : peaks_t) (category : string)
  : result peaks_t :=
  match dict_get String.eqb category peaks with
  | Some [] => Ok (dict_del String.eqb category peaks)
  | Some d => Ok (dict_set String.eqb category (top10 d) peaks)
  | None => Raise KeyError
  end.

Definition prune_peaks (peaks : peaks_t) : result peaks_t :=
  foldM prune_step (dict_keys peaks) peaks.

Definition default_harmonics_range : Z * Z := (-6, 7).

Definition calculate_orbital_peaks (sun_arg_lat_freq draconitic_freq : F)
           (harmonics_range : Z * Z) : result peaks_t :=
  peaks <- collect_peaks sun_arg_lat_freq draconitic_freq harmonics_range ;;
  prune_peaks peaks.

(** Views of the typed tables as catalogue values. *)
Definition vdict_str (d : dict string F) : pyval F :=
  VDict (map (fun kv => (KStr (fst kv), VNum (snd kv))) d).

Definition vdict_int (d : dict Z F) : pyval F :=
  VDict (map (fun kv => (KInt (fst kv), VNum (snd kv))) d).

Definition vpeaks (p : peaks_t) : pyval F :=
  VDict (map (fun kv => (KStr (fst kv), vdict_str (snd kv))) p).

(** [d[k] = v] and [d[k1][k2] = v] on catalogue values. *)
Definition cat_t : Type := dict key (pyval F).

Definition set_item2 (k1 k2 : key) (v : pyval F) (d : cat_t) : result cat_t :=
  match dict_get key_eqb k1 d with
  | Some (VDict d1) =>
      Ok (dict_set key_eqb k1 (VDict (dict_set key_eqb k2 v d1)) d)
  | _ => Raise KeyError
  end.

(** Orbital signals table. *)
Definition nm_combinations : list (Z * Z) :=
  [(-4, 1); (-3, 1); (-2, 1); (-1, 1); (0, 1); (1, 1); (2, 1);
   (-4, 2); (-3, 2); (-2, 2); (-1, 2); (0, 2); (1, 2); (2, 2);
   (-2, 3); (-1, 3); (0, 3); (1, 3);
   (-1, 4); (0, 4); (1, 4)].

(** [f"n{n}_m{m}"] *)
Definition signal_label (n m : Z) : string :=
  ("n" ++ str n ++ "_m" ++ str m)%string.

Definition signal_step (T_S T_E : F) (signals : cat_t) (nm : Z * Z)
  : result cat_t :=
  let '(n, m) := nm in
  P_nm <- calculate_orbital_period n m T_S T_E ;;
  if negb (feqb P_nm inf) && fltb (lit 0) P_nm then
    freq_cpd <- fdiv (lit 24) P_nm ;;
    aliased_freq_cpd <- calculate_subdaily_aliasing freq_cpd (lit 24) ;;
    aliased_period_days <-
      (if fltb (lit 0) aliased_freq_cpd then fdiv (lit 1) aliased_freq_cpd
       else Ok inf) ;;
    Ok (dict_set key_eqb (KStr (signal_label n m))
          (VDict [(KStr "orbital_period_hours", VNum P_nm);
                  (KStr "frequency_cpd", VNum freq_cpd);
                  (KStr "aliased_frequency_cpd", VNum aliased_freq_cpd);
                  (KStr "aliased_period_days", VNum aliased_period_days)])
          signals)
  else Ok signals.

Definition calculate_orbital_signals_table : result cat_t :=
  let T_E := lit 23.9345 in
  let T_S_GPS := lit 11.967 in
  let T_S_GLONASS := lit 11.264 in
  let T_S_GALILEO := lit 14.077 in
  let orbital_signals : cat_t :=
    [(KStr "gps", VDict []); (KStr "glonass", VDict []);
     (KStr "galileo", VDict [])] in
  let constellation_periods :=
    [("gps", T_S_GPS); ("glonass", T_S_GLONASS);
     ("galileo", T_S_GALILEO)]%string in
  foldM (fun orbital_signals cT =>
           signals <- foldM (signal_step (snd cT) T_E) nm_combinations [] ;;
           Ok (dict_set key_eqb (KStr (fst cT)) (VDict signals)
                        orbital_signals))
        constellation_periods orbital_signals.

(** Catalogue assembly. *)
Definition tide_aliases (gps_ground_repeat galileo_ground_repeat
                         glonass_ground_repeat : F)
           (aliases : dict string F) (tide : string * F)
  : result (dict string F) :=
  let '(tide_name, tide_freq) := tide in
  a1 <- calculate_alias_frequency tide_freq (lit 1) ;;
  let aliases := dict_set String.eqb (tide_name ++ "_daily")%string a1 aliases in
  a2 <- calculate_alias_frequency tide_freq gps_ground_repeat ;;
  let aliases := dict_set String.eqb (tide_name ++ "_gps")%string a2 aliases in
  a3 <- calculate_alias_frequency tide_freq galileo_ground_repeat ;;
  let aliases := dict_set String.eqb (tide_name ++ "_galileo")%string a3 aliases in
  a4 <- calculate_alias_frequency tide_freq glonass_ground_repeat ;;
  Ok (dict_set String.eqb (tide_name ++ "_glonass")%string a4 aliases).

Definition create_gnss_frequencies : result cat_t :=
  let earth_angular_speed := lit 1.0027378 in
  let earth_orbital_freq := lit 0.0027378 in
  let gps_orbital_freq := lit 2.0057014 in
  let gps_nodal_precession := lit (-0.0001075) in
  let gps_ground_repeat := lit 1.0028507 in
  let gps_draconitic := lit 0.0028453 in
  let glonass_orbital_freq := lit 2.1310182 in
  let glonass_nodal_precession := lit (-0.0000922) in
  let glonass_ground_repeat := lit 0.1253540 in
  let glonass_sun_arg_lat := lit 2.1281882 in
  let glonass_draconitic := lit 0.0028300 in
  let galileo_orbital_freq := lit 1.7267000 in
  let galileo_nodal_precession := lit (-0.0000726) in
  let galileo_ground_repeat := lit 0.1015706 in
  let galileo_sun_arg_lat := lit 1.7238896 in
  let galileo_draconitic := lit 0.0028104 in
  let tides : dict string F :=
    [("145_545", lit 0.9293886);
     ("OO_1", lit 0.9294198);
     ("O_1", lit 0.9295357);
     ("2N_2", lit 1.8596904);
     ("μ_2", lit 1.8645473);
     ("M_2", lit 1.9322734);
     ("M_m", lit 0.0362920);
     ("M_f", lit 0.0732027)]%string in
  gps_harm <- calculate_draconitic_harmonics gps_draconitic 15 ;;
  glonass_harm <- calculate_draconitic_harmonics glonass_draconitic 15 ;;
  glonass_peaks <- calculate_orbital_peaks glonass_sun_arg_lat
                     glonass_draconitic default_harmonics_range ;;
  galileo_harm <- calculate_draconitic_harmonics galileo_draconitic 15 ;;
  galileo_peaks <- calculate_orbital_peaks galileo_sun_arg_lat
                     galileo_draconitic default_harmonics_range ;;
  annual <- calculate_annual_harmonics earth_orbital_freq 12 ;;
  let gnss_frequencies : cat_t :=
    [(KStr "earth",
      VDict [(KStr "angular_speed", VNum earth_angular_speed);
             (KStr "orbital_frequency", VNum earth_orbital_freq)]);
     (KStr "gps",
      VDict [(KStr "orbital_frequency", VNum gps_orbital_freq);
             (KStr "nodal_precession_frequency", VNum gps_nodal_precession);
             (KStr "ground_repeat_frequency", VNum gps_ground_repeat);
             (KStr "draconitic_frequency", VNum gps_draconitic);
             (KStr "draconitic_harmonics", vdict_int gps_harm);
             (KStr "orbital_signals", VDict [])]);
     (KStr "glonass",
      VDict [(KStr "orbital_frequency", VNum glonass_orbital_freq);
             (KStr "nodal_precession_frequency",
              VNum glonass_nodal_precession);
             (KStr "ground_repeat_frequency", VNum glonass_ground_repeat);
             (KStr "sun_arg_lat_frequency", VNum glonass_sun_arg_lat);
             (KStr "draconitic_frequency", VNum glonass_draconitic);
             (KStr "draconitic_harmonics", vdict_int glonass_harm);
             (KStr "orbital_peaks", vpeaks glonass_peaks);
             (KStr "orbital_signals", VDict [])]);
     (KStr "galileo",
      VDict [(KStr "orbital_frequency", VNum galileo_orbital_freq);
             (KStr "nodal_precession_frequency",
              VNum galileo_nodal_precession);
             (KStr "ground_repeat_frequency", VNum galileo_ground_repeat);
             (KStr "sun_arg_lat_frequency", VNum galileo_sun_arg_lat);
             (KStr "draconitic_frequency", VNum galileo_draconitic);
             (KStr "draconitic_harmonics", vdict_int galileo_harm);
             (KStr "orbital_peaks", vpeaks galileo_peaks);
             (KStr "orbital_signals", VDict [])]);
     (KStr "tides", vdict_str tides);
     (KStr "annual", vdict_int annual);
     (KStr "aliases", VDict [])] in
  aliases <- foldM (tide_aliases gps_ground_repeat galileo_ground_repeat
                                 glonass_ground_repeat) tides [] ;;
  let gnss_frequencies :=
    dict_set key_eqb (KStr "aliases") (vdict_str aliases) gnss_frequencies in
  orbital_signals <- calculate_orbital_signals_table ;;
  foldM (fun gnss_frequencies constellation =>
           match dict_get key_eqb (KStr constellation) orbital_signals with
           | Some v => set_item2 (KStr constellation) (KStr "orbital_signals")
                                 v gnss_frequencies
           | None => Raise KeyError
           end)
        ["gps"; "glonass"; "galileo"]%string gnss_frequencies.
End Code.

(* ================================================================== *)
(** ** The summary and the range search *)

(** The summary returned by [get_frequency_summary]: a [dict] with fixed
    keys. *)
Record frequency_range_t (F : Type) : Type := {
  min_cpd : F;
  max_cpd : F;
  min_period_days : F;
  max_period_days : F
}.

Inductive count_t : Set :=
| Count (n : Z)
| Counts (d : list (string * Z)).

Record summary_t (F : Type) : Type := {
  total_frequencies : Z;
  frequency_range : frequency_range_t F;
  categories : list (string * count_t)
}.

Section Summary.
Context {F : Type} `{PyFloat F}.

(** [count_frequencies(d)]: the loop over [d.items()], a nested [dict]
    counted by the recursive call, a number counted when it is positive.
    (The [prefix] argument is only passed along.) *)
Fixpoint count_value (v : pyval F) : Z :=
  match v with
  | VNum x => if fltb (lit 0) x then 1 else 0
  | VDict d =>
      (fix loop (count : Z) (d : list (key * pyval F)) : Z :=
         match d with
         | [] => count
         | (_, v') :: d' => loop (count + count_value v') d'
         end) 0%Z d
  end.

Definition count_frequencies (d : cat_t) : Z := count_value (VDict d).

(** [collect_frequencies(d)]: appends the positive numbers to [all_freqs],
    in the order of the traversal. *)
Fixpoint collect_value (all_freqs : list F) (v : pyval F) : list F :=
  match v with
  | VNum x => if fltb (lit 0) x then all_freqs ++ [x] else all_freqs
  | VDict d =>
      (fix loop (all_freqs : list F) (d : list (key * pyval F)) : list F :=
         match d with
         | [] => all_freqs
         | (_, v') :: d' => loop (collect_value all_freqs v') d'
         end) all_freqs d
  end.

Definition collect_frequencies (d : cat_t) : list F :=
  collect_value [] (VDict d).

(** [min(l)] and [max(l)] on a non-empty list: the current best is replaced
    by an item that is smaller (larger). *)
Definition py_min (first : F) (rest : list F) : F :=
  fold_left (fun best item => if fltb item best then item else best) rest first.

Definition py_max (first : F) (rest : list F) : F :=
  fold_left (fun best item => if fltb best item then item else best) rest first.

(** [len(frequencies[k1][k2])]; a missing key raises [KeyError] (a number
    in place of a [dict] does not occur in the catalogue). *)
Definition item (k : string) (v : pyval F) : result (pyval F) :=
  match v with
  | VDict d =>
      match dict_get key_eqb (KStr k) d with
      | Some v' => Ok v'
      | None => Raise KeyError
      end
  | VNum _ => Raise KeyError
  end.

Definition py_len (v : pyval F) : result Z :=
  match v with
  | VDict d => Ok (Z.of_nat (List.length d))
  | VNum _ => Raise KeyError
  end.

Definition len_at (k1 k2 : string) (frequencies : cat_t) : result Z :=
  v1 <- item k1 (VDict frequencies) ;;
  v2 <- item k2 v1 ;;
  py_len v2.

(** [sum(len(peaks) for peaks in frequencies[k]["orbital_peaks"].values())] *)
Definition peaks_total (k : string) (frequencies : cat_t) : result Z :=
  v1 <- item k (VDict frequencies) ;;
  v2 <- item "orbital_peaks" v1 ;;
  match v2 with
  | VDict bands =>
      foldM (fun total band => n <- py_len (snd band) ;; Ok (total + n)%Z)
            bands 0%Z
  | VNum _ => Raise KeyError
  end.

Definition frequency_range_of (all_freqs : list F)
  : result (frequency_range_t F) :=
  match all_freqs with
  | [] => Ok {| min_cpd := lit 0; max_cpd := lit 0;
                min_period_days := lit 0; max_period_days := lit 0 |}
  | first :: rest =>
      let lo := py_min first rest in
      let hi := py_max first rest in
      p_min <- cpd_to_days hi ;;
      p_max <- cpd_to_days lo ;;
      Ok {| min_cpd := lo; max_cpd := hi;
            min_period_days := p_min; max_period_days := p_max |}
  end.

Definition summary_of (frequencies : cat_t) : result (summary_t F) :=
  let total := count_frequencies frequencies in
  let all_freqs := collect_frequencies frequencies in
  range <- frequency_range_of all_freqs ;;
  gps_harm <- len_at "gps" "draconitic_harmonics" frequencies ;;
  gps_sig <- len_at "gps" "orbital_signals" frequencies ;;
  glo_harm <- len_at "glonass" "draconitic_harmonics" frequencies ;;
  glo_peaks <- peaks_total "glonass" frequencies ;;
  glo_sig <- len_at "glonass" "orbital_signals" frequencies ;;
  gal_harm <- len_at "galileo" "draconitic_harmonics" frequencies ;;
  gal_peaks <- peaks_total "galileo" frequencies ;;
  gal_sig <- len_at "galileo" "orbital_signals" frequencies ;;
  tides <- (v <- item "tides" (VDict frequencies) ;; py_len v) ;;
  annual <- (v <- item "annual" (VDict frequencies) ;; py_len v) ;;
  aliases <- (v <- item "aliases" (VDict frequencies) ;; py_len v) ;;
  Ok {| total_frequencies := total;
        frequency_range := range;
        categories :=
          [("gps", Counts [("draconitic_harmonics", gps_harm);
                           ("orbital_signals", gps_sig)]);
           ("glonass", Counts [("draconitic_harmonics", glo_harm);
                               ("orbital_peaks", glo_peaks);
                               ("orbital_signals", glo_sig)]);
           ("galileo", Counts [("draconitic_harmonics", gal_harm);
                               ("orbital_peaks", gal_peaks);
                               ("orbital_signals", gal_sig)]);
           ("tides", Count tides);
           ("annual", Count annual);
           ("aliases", Count aliases)]%string |}.

Definition get_frequency_summary : result (summary_t F) :=
  frequencies <- create_gnss_frequencies ;;
  summary_of frequencies.

(** [find_frequencies_in_range] of [examples/basic_usage.py].  A path is a
    key: the key itself below an empty prefix, the string
    [f"{prefix}.{key}"] otherwise. *)
Definition truthy (k : key) : bool :=
  match k with
  | KStr s => negb (String.eqb s EmptyString)
  | KInt z => negb (z =? 0)%Z
  end.

Definition fmt (k : key) : string :=
  match k with
  | KStr s => s
  | KInt z => str z
  end.

Definition current_path (prefix k : key) : key :=
  if truthy prefix then KStr (fmt prefix ++ "." ++ fmt k)%string else k.

Fixpoint find_in_value (min_freq max_freq : F) (path : key) (v : pyval F)
  : list (key * F) :=
  match v with
  | VNum x =>
      if fleb min_freq x && fleb x max_freq then [(path, x)] else []
  | VDict d =>
      (fix loop (results : list (key * F)) (d : list (key * pyval F))
         : list (key * F) :=
         match d with
         | [] => results
         | (k, v') :: d' =>
             loop (results
                   ++ find_in_value min_freq max_freq (current_path path k) v')
                  d'
         end) [] d
  end.

Definition find_frequencies_in_range (freq_dict : cat_t)
           (min_freq max_freq : F) (prefix : key) : list (key * F) :=
  find_in_value min_freq max_freq prefix (VDict freq_dict).
End Summary.

(* ================================================================== *)
(** ** Instance 1: exact arithmetic *)

Module Exact.
Local Open Scope Q_scope.

(** The rationals with the two infinities and NaN.  Finite results are
    kept in lowest terms. *)
Inductive xreal : Set :=
| Fin (q : Q)
| PInf
| NInf
| NaN.

Definition Qltb (a b : Q) : bool := negb (Qle_bool b a).

Definition xopp (x : xreal) : xreal :=
  match x with
  | Fin q => Fin (Qred (- q))
  | PInf => NInf
  | NInf => PInf
  | NaN => NaN
  end.

Definition xadd (x y : xreal) : xreal :=
  match x, y with
  | Fin a, Fin b => Fin (Qred (a + b))
  | NaN, _ | _, NaN => NaN
  | PInf, NInf | NInf, PInf => NaN
  | PInf, _ | _, PInf => PInf
  | NInf, _ | _, NInf => NInf
  end.

Definition xsub (x y : xreal) : xreal :=
  match x, y with
  | Fin a, Fin b => Fin (Qred (a - b))
  | _, _ => xadd x (xopp y)
  end.

(** An infinity scaled by a finite factor. *)
Definition scale_inf (pos : bool) (q : Q) : xreal :=
  match q ?= 0 with
  | Eq => NaN
  | Gt => if pos then PInf else NInf
  | Lt => if pos then NInf else PInf
  end.

Definition xmul (x y : xreal) : xreal :=
  match x, y with
  | Fin a, Fin b => Fin (Qred (a * b))
  | NaN, _ | _, NaN => NaN
  | PInf, Fin b => scale_inf true b
  | NInf, Fin b => scale_inf false b
  | Fin a, PInf => scale_inf true a
  | Fin a, NInf => scale_inf false a
  | PInf, PInf | NInf, NInf => PInf
  | PInf, NInf | NInf, PInf => NInf
  end.

Definition xdiv (x y : xreal) : result xreal :=
  match y with
  | Fin b =>
      if Qeq_bool b 0 then Raise ZeroDivisionError
      else match x with
           | Fin a => Ok (Fin (Qred (a / b)))
           | PInf => Ok (scale_inf true b)
           | NInf => Ok (scale_inf false b)
           | NaN => Ok NaN
           end
  | PInf | NInf =>
      match x with
      | Fin _ => Ok (Fin 0)
      | _ => Ok NaN
      end
  | NaN => Ok NaN
  end.

Definition xabs (x : xreal) : xreal :=
  match x with
  | Fin q => Fin (Qred (Qabs q))
  | PInf | NInf => PInf
  | NaN => NaN
  end.

Definition xeqb (x y : xreal) : bool :=
  match x, y with
  | Fin a, Fin b => Qeq_bool a b
  | PInf, PInf | NInf, NInf => true
  | _, _ => false
  end.

Definition xltb (x y : xreal) : bool :=
  match x, y with
  | Fin a, Fin b => Qltb a b
  | NInf, Fin _ | NInf, PInf | Fin _, PInf => true
  | _, _ => false
  end.

Definition xleb (x y : xreal) : bool :=
  match x, y with
  | Fin a, Fin b => Qle_bool a b
  | NaN, _ | _, NaN => false
  | NInf, _ | _, PInf => true
  | _, _ => false
  end.

Definition xfloor (x : xreal) : result Z :=
  match x with
  | Fin q => Ok (Qfloor q)
  | PInf | NInf => Raise OverflowError
  | NaN => Raise ValueError
  end.

Definition xround (x : xreal) : result Z :=
  match x with
  | Fin q => Ok (round_half_even (Qnum q) (Qden q))
  | PInf | NInf => Raise OverflowError
  | NaN => Raise ValueError
  end.

#[export] Instance exact : PyFloat xreal := {
  lit q := Fin (Qred q);
  inf := PInf;
  of_int z := Ok (Fin (inject_Z z));
  fadd := xadd;
  fsub := xsub;
  fmul := xmul;
  fdiv := xdiv;
  fabs := xabs;
  feqb := xeqb;
  fltb := xltb;
  fleb := xleb;
  ffloor := xfloor;
  fround := xround
}.

End Exact.

(* ================================================================== *)
(** ** Instance 2: IEEE 754 binary64 *)

Module Binary64.

(** The float nearest to an integer (ties to even; an infinity beyond the
    largest float). *)
Definition z2f (z : Z) : float := SF2Prim (binary_normalize prec emax z 0 false).

(** A decimal literal [n/10^k]: numerator and denominator are floats
    exactly, and their IEEE quotient is the float nearest to the literal. *)
Definition lit64 (q : Q) : float :=
  PrimFloat.div (z2f (Qnum q)) (z2f (Zpos (Qden q))).

Definition of_int64 (z : Z) : result float :=
  let f := z2f z in
  if PrimFloat.is_infinity f then Raise OverflowError else Ok f.

Definition div64 (x y : float) : result float :=
  if PrimFloat.eqb y PrimFloat.zero then Raise ZeroDivisionError
  else Ok (PrimFloat.div x y).

(** Conversion of a float to an [int] by a rounding of fractions. *)
Definition to_int (rnd : Z -> positive -> Z) (x : float) : result Z :=
  match Prim2SF x with
  | S754_zero _ => Ok 0
  | S754_infinity _ => Raise OverflowError
  | S754_nan => Raise ValueError
  | S754_finite s m e =>
      let z := if s then Zneg m else Zpos m in
      match e with
      | Z0 => Ok z
      | Zpos p => Ok (z * 2 ^ Zpos p)
      | Zneg p => Ok (rnd z (2 ^ p)%positive)
      end
  end.

Definition floor64 : float -> result Z := to_int (fun n d => n / Zpos d).
Definition round64 : float -> result Z := to_int round_half_even.

#[export] Instance binary64 : PyFloat float := {
  lit := lit64;
  inf := PrimFloat.infinity;
  of_int := of_int64;
  fadd := PrimFloat.add;
  fsub := PrimFloat.sub;
  fmul := PrimFloat.mul;
  fdiv := div64;
  fabs := PrimFloat.abs;
  feqb := PrimFloat.eqb;
  fltb := PrimFloat.ltb;
  fleb := PrimFloat.leb;
  ffloor := floor64;
  fround := round64
}.

(** The exact value of a finite float. *)
Definition to_Q (x : float) : option Q :=
  match Prim2SF x with
  | S754_zero _ => Some 0%Q
  | S754_finite s m e =>
      let z := if s then Zneg m else Zpos m in
      Some (match e with
            | Z0 => inject_Z z
            | Zpos p => inject_Z (z * 2 ^ Zpos p)
            | Zneg p => Qmake z (2 ^ p)
            end)
  | _ => None
  end.

End Binary64.

(* ================================================================== *)
(** * Vocabulary of the statements *)

Import Exact Binary64.
Local Open Scope Q_scope.

(** ** Rounding of rationals *)

(** [round] on a rational: the function behind [fround] on [Exact.xreal]. *)
Definition Qround_even (x : Q) : Z := round_half_even (Qnum x) (Qden x).

(** ** Results *)

(** Two float results are different when their IEEE decodings are. *)
Definition decode (r : result float) : option spec_float :=
  match r with
  | Ok v => Some (Prim2SF v)
  | Raise _ => None
  end.

(** The round trip cpd -> days -> cpd. *)
Definition round_trip {F : Type} `{PyFloat F} (f : F) : result F :=
  (p <- cpd_to_days f ;; days_to_cpd p)%py.

Definition value_of {A : Type} (r : result (list A)) : list A :=
  match r with
  | Ok v => v
  | Raise _ => []
  end.

(** Duplicate-free lists, decided. *)
Fixpoint nodupb {A : Type} (eqb : A -> A -> bool) (l : list A) : bool :=
  match l with
  | [] => true
  | x :: l' => negb (existsb (eqb x) l') && nodupb eqb l'
  end.

(** ** The peak classifier *)

Definition band_names : list string :=
  ["8d_peaks"; "4d_peaks"; "2-7d_peaks"; "2d_peaks"; "1d_peaks"]%string.

(** ** The result table and the catalogue *)

Section Statements.
Context {F : Type} `{PyFloat F}.

(** What the closing loop computes: empty bands dropped, the others cut
    to their top ten. *)
Definition pruned (peaks : peaks_t (F := F)) : peaks_t (F := F) :=
  flat_map (fun bd => match snd bd with
                      | [] => []
                      | _ :: _ => [(fst bd, top10 (snd bd))]
                      end) peaks.

(** [v[k1][k2]...] *)
Fixpoint lookup (path : list key) (v : pyval F) : option (pyval F) :=
  match path with
  | [] => Some v
  | k :: path' =>
      match v with
      | VDict d =>
          match dict_get key_eqb k d with
          | Some v' => lookup path' v'
          | None => None
          end
      | VNum _ => None
      end
  end.

(** Every number stored in a value, with the keys that lead to it
    (innermost first). *)
Fixpoint numbers (path : list key) (v : pyval F) : list (list key * F) :=
  match v with
  | VNum x => [(path, x)]
  | VDict d =>
      (fix go (d : list (key * pyval F)) : list (list key * F) :=
         match d with
         | [] => []
         | (k, v') :: d' => numbers (k :: path) v' ++ go d'
         end) d
  end.

Definition is_nodal_precession (path : list key) : bool :=
  match path with
  | KStr s :: _ => String.eqb s "nodal_precession_frequency"
  | _ => false
  end.

(** The claim of C6 on a catalogue: no stored number is negative. *)
Definition all_nonnegative (cat : cat_t) : Prop :=
  forall path x, In (path, x) (numbers [] (VDict cat)) ->
                 fleb (lit 0) x = true.

(** All stored numbers are non-negative, but for the nodal precession
    frequencies, which are negative. *)
Definition sign_check (px : list key * F) : bool :=
  if is_nodal_precession (fst px) then fltb (snd px) (lit 0)
  else fleb (lit 0) (snd px).

Definition nonnegative_but_nodal_precession : Prop :=
  exists cat,
    create_gnss_frequencies = Ok cat /\
    forallb sign_check (numbers [] (VDict cat)) = true /\
    map fst (filter (fun px => is_nodal_precession (fst px))
                    (numbers [] (VDict cat)))
    = [[KStr "nodal_precession_frequency"; KStr "gps"];
       [KStr "nodal_precession_frequency"; KStr "glonass"];
       [KStr "nodal_precession_frequency"; KStr "galileo"]].

Definition has_negative_value : Prop :=
  exists cat,
    create_gnss_frequencies = Ok cat /\
    lookup [KStr "gps"; KStr "nodal_precession_frequency"] (VDict cat)
    = Some (VNum (lit (-0.0001075))) /\
    fltb (lit (-0.0001075)) (lit 0) = true /\
    fleb (lit 0) (lit (-0.0001075)) = false /\
    ~ all_nonnegative cat.

(** [v[k1][k2]...] when it is a [dict] (empty otherwise), or a number. *)
Definition dict_at (path : list key) (v : pyval F) : list (key * pyval F) :=
  match lookup path v with
  | Some (VDict d) => d
  | _ => []
  end.

Definition num_at (path : list key) (v : pyval F) : result F :=
  match lookup path v with
  | Some (VNum x) => Ok x
  | _ => Raise KeyError
  end.

(** The four alias entries of one tide: its alias against 1.0 and against
    the GPS, Galileo and GLONASS ground-repeat frequencies stored in the
    catalogue, each under the tide's name and a suffix. *)
Definition alias_against (cat : cat_t) (constellation : string)
           (tide_freq : F) : result F :=
  (r <- num_at [KStr constellation; KStr "ground_repeat_frequency"]
               (VDict cat) ;;
   calculate_alias_frequency tide_freq r)%py.

Definition tide_entries (cat : cat_t) (tide : key * pyval F)
  : list (key * result F) :=
  match tide with
  | (KStr name, VNum tide_freq) =>
      [(KStr (name ++ "_daily"), calculate_alias_frequency tide_freq (lit 1));
       (KStr (name ++ "_gps"), alias_against cat "gps" tide_freq);
       (KStr (name ++ "_galileo"), alias_against cat "galileo" tide_freq);
       (KStr (name ++ "_glonass"), alias_against cat "glonass" tide_freq)]
  | _ => []
  end.

Definition stored (kv : key * pyval F) : key * result F :=
  (fst kv, match snd kv with
           | VNum x => Ok x
           | VDict _ => Raise KeyError
           end).

Definition catalogue_shape (cat : cat_t) : Prop :=
  let tides := dict_at [KStr "tides"] (VDict cat) in
  let aliases := dict_at [KStr "aliases"] (VDict cat) in
  lookup [KStr "gps"; KStr "draconitic_frequency"] (VDict cat)
  = Some (VNum (lit 0.0028453)) /\
  List.length tides = 8%nat /\
  List.length aliases = (4 * List.length tides)%nat /\
  List.length aliases = 32%nat /\
  NoDup (dict_keys aliases) /\
  map stored aliases = flat_map (tide_entries cat) tides.
End Statements.

(** The catalogue, evaluated once on each instance. *)
Definition catalogue64 : cat_t (F := float) :=
  Eval vm_compute in value_of (create_gnss_frequencies (F := float)).

Definition catalogueQ : cat_t (F := xreal) :=
  Eval vm_compute in value_of (create_gnss_frequencies (F := xreal)).

(** ** The peak classifier on exact arithmetic *)

(** The alias of a combined frequency: its distance to the integer that
    [round] picks. *)
Definition alias_of (c : Q) : Q := Qabs (c - inject_Z (Qround_even c)).

(** The band of an alias frequency: that of its period [1/a], none for a
    zero alias (infinite period). *)
Definition band_of_alias (a : Q) : option string :=
  if Qltb 0 a then band_of (Fin (Qred (1 / a))) else None.

(** The invariant of the collecting loops: the five bands are present and
    the one-day band is empty. *)
Definition one_day_empty (peaks : peaks_t (F := xreal)) : Prop :=
  dict_keys peaks = band_names /\
  dict_get String.eqb "1d_peaks"%string peaks = Some [].

(** The pairs [(mult, k)] of the default call, in the order of the loops. *)
Definition default_pairs : list (Z * Z) :=
  list_prod [1; 2; 3; 4]%Z [-6; -5; -4; -3; -2; -1; 0; 1; 2; 3; 4; 5; 6]%Z.

Definition pair_label (mk : Z * Z) : string := peak_label (fst mk) (snd mk).

Definition combined (fu fd : Q) (mk : Z * Z) : Q :=
  inject_Z (fst mk) * fu + inject_Z (snd mk) * fd.

Definition pair_alias (fu fd : Q) (mk : Z * Z) : Q :=
  Qred (alias_of (combined fu fd mk)).

Definition pair_band (fu fd : Q) (mk : Z * Z) : option string :=
  band_of_alias (pair_alias fu fd mk).

Definition in_band (fu fd : Q) (b : string) (mk : Z * Z) : bool :=
  match pair_band fu fd mk with
  | Some b' => String.eqb b' b
  | None => false
  end.

(** The entries of band [b] after the pairs [l] have been processed. *)
Definition band_entries (fu fd : Q) (b : string) (l : list (Z * Z))
  : dict string xreal :=
  map (fun mk => (pair_label mk, Fin (pair_alias fu fd mk)))
      (filter (in_band fu fd b) l).

(** The invariant of the collecting loops on the pairs [l] processed so
    far: each band holds the entries of the pairs that fall in it. *)
Definition collected (fu fd : Q) (l : list (Z * Z))
           (peaks : peaks_t (F := xreal)) : Prop :=
  dict_keys peaks = band_names /\
  forall b, In b band_names ->
            dict_get String.eqb b peaks = Some (band_entries fu fd b l).

(** ** Alias folding on exact arithmetic *)

(** The reference that [calculate_alias_frequency] folds against: 1.0 in
    place of a zero reference. *)
Definition effective_reference (r : Q) : Q := if Qeq_bool r 0 then 1 else r.

(** The distance from [f] to the multiple of [r] that [round] selects. *)
Definition fold_distance (f r : Q) : Q :=
  Qabs (f - inject_Z (Qround_even (f / r)) * r).

(** ** The summary and the range search *)

Section Traversal.
Context {F : Type} `{PyFloat F}.

(** The positive numbers stored in a catalogue, in the order of the
    traversal. *)
Definition positive_numbers (cat : cat_t) : list F :=
  filter (fun x => fltb (lit 0) x) (map snd (numbers [] (VDict cat))).

(** The path that the range search prints for a number stored under the
    keys [path] (innermost first) below [prefix]. *)
Definition dotted (prefix : key) (path : list key) : key :=
  fold_right (fun k p => current_path p k) prefix path.

Definition in_range (min_freq max_freq x : F) : bool :=
  fleb min_freq x && fleb x max_freq.

(** Values from the largest to the smallest. *)
Definition descending (l : list F) : Prop :=
  StronglySorted (fun x y => fleb y x = true) l.
End Traversal.

(** ** The returned peak bands *)

(** On positive values of exact arithmetic the order is total; an entry is
    not below another when its value is at least the other's. *)
Definition positive_entry (kv : string * xreal) : Prop :=
  xltb (Fin 0) (snd kv) = true.

Definition not_below (x y : string * xreal) : Prop :=
  xleb (snd y) (snd x) = true.

(** An entry of band [b] in a table built from [fu] and [fd] over the
    harmonics of [hr]: the alias of a combination in range, under its
    label, with a period in the band. *)
Definition peak_entry (fu fd : Q) (hr : Z * Z) (b label : string) (v : xreal)
  : Prop :=
  exists mult k a,
    (1 <= mult <= 4)%Z /\ (fst hr <= k < snd hr)%Z /\
    label = peak_label mult k /\ v = Fin a /\
    a == alias_of (combined fu fd (mult, k)) /\
    band_of_alias a = Some b.

Definition valid_band (fu fd : Q) (hr : Z * Z) (b : string)
           (d : dict string xreal) : Prop :=
  NoDup (dict_keys d) /\
  forall label v, In (label, v) d -> peak_entry fu fd hr b label v.

Definition valid_table (fu fd : Q) (hr : Z * Z) (peaks : peaks_t (F := xreal))
  : Prop :=
  dict_keys peaks = band_names /\
  forall b d, In (b, d) peaks -> valid_band fu fd hr b d.

(** ** The labels *)

Fixpoint occurs (c : ascii) (s : string) : bool :=
  match s with
  | EmptyString => false
  | String a s' => Ascii.eqb c a || occurs c s'
  end.

Definition digit (c : ascii) : bool :=
  existsb (Ascii.eqb c)
          ["0"; "1"; "2"; "3"; "4"; "5"; "6"; "7"; "8"; "9"]%char.

(* ================================================================== *)
(** * Properties *)

(** ** The error monad and the loops *)

Lemma bind_Ok {A B : Type} (r : result A) (k : A -> result B) (b : B) :
  bind r k = Ok b -> exists a, r = Ok a /\ k a = Ok b.
Proof.
  destruct r as [a|e]; simpl; intros E; [eauto | discriminate].
Qed.

Lemma foldM_app {A S : Type} (body : S -> A -> result S) (xs ys : list A) (s : S) :
  foldM body (xs ++ ys) s = (s' <- foldM body xs s ;; foldM body ys s')%py.
Proof.
  revert s; induction xs as [|x xs IH]; intros s; simpl; [reflexivity|].
  destruct (body s x); simpl; auto.
Qed.

(** ** Rounding of rationals *)

Lemma Qfrac_compare (x : Q) :
  (2 * (Qnum x mod Zpos (Qden x)) ?= Zpos (Qden x))%Z
  = (x - inject_Z (Qfloor x) ?= 1 # 2).
Proof.
  destruct x as [n d]; unfold Qfloor, Qcompare, Qminus, Qplus, Qopp, inject_Z.
  cbn [Qnum Qden].
  pose proof (Z.div_mod n (Zpos d) ltac:(lia)) as E.
  set (q := (n / Zpos d)%Z) in *. set (r := (n mod Zpos d)%Z) in *.
  rewrite Pos.mul_1_r.
  replace ((n * 1 + - q * Zpos d) * 2)%Z with (2 * r)%Z by lia.
  replace (1 * Zpos d)%Z with (Zpos d) by lia.
  reflexivity.
Qed.

Lemma Qround_even_spec (x : Q) :
  Qround_even x =
  match x - inject_Z (Qfloor x) ?= 1 # 2 with
  | Lt => Qfloor x
  | Gt => (Qfloor x + 1)%Z
  | Eq => if Z.even (Qfloor x) then Qfloor x else (Qfloor x + 1)%Z
  end.
Proof.
  unfold Qround_even, round_half_even. rewrite Qfrac_compare.
  destruct x as [n d]; reflexivity.
Qed.

#[export] Instance Qround_even_comp : Proper (Qeq ==> eq) Qround_even.
Proof.
  intros x y E. rewrite !Qround_even_spec.
  rewrite (Qfloor_comp _ _ E).
  assert (C : (x - inject_Z (Qfloor y) ?= 1 # 2) = (y - inject_Z (Qfloor y) ?= 1 # 2))
    by (apply Qcompare_comp; [rewrite E|]; reflexivity).
  rewrite C; reflexivity.
Qed.

Lemma inject_Z_succ (a : Z) : inject_Z (a + 1) == inject_Z a + 1.
Proof. rewrite inject_Z_plus. reflexivity. Qed.

Lemma Qfloor_bounds (x : Q) :
  inject_Z (Qfloor x) <= x /\ x < inject_Z (Qfloor x) + 1.
Proof.
  split; [apply Qfloor_le|].
  pose proof (Qlt_floor x) as L. rewrite inject_Z_succ in L. exact L.
Qed.

(** [round] picks a nearest integer. *)
Lemma Qround_even_nearest (x : Q) : Qabs (x - inject_Z (Qround_even x)) <= 1 # 2.
Proof.
  rewrite Qround_even_spec.
  destruct (Qfloor_bounds x) as [L U].
  destruct (Qcompare_spec (x - inject_Z (Qfloor x)) (1 # 2)) as [E|E|E].
  - destruct (Z.even (Qfloor x)).
    + apply Qabs_Qle_condition; split; lra.
    + rewrite inject_Z_succ. apply Qabs_Qle_condition; split; lra.
  - apply Qabs_Qle_condition; split; lra.
  - rewrite inject_Z_succ. apply Qabs_Qle_condition; split; lra.
Qed.

(** [floor(x + 0.5)] is a nearest integer too, at the same distance. *)
Lemma Qfloor_half (x : Q) :
  Qfloor (x + (1 # 2)) =
  match x - inject_Z (Qfloor x) ?= 1 # 2 with
  | Lt => Qfloor x
  | _ => (Qfloor x + 1)%Z
  end.
Proof.
  destruct (Qfloor_bounds x) as [L U].
  destruct (Qfloor_bounds (x + (1 # 2))) as [L' U'].
  set (a := Qfloor x) in *. set (b := Qfloor (x + (1 # 2))) in *.
  assert (Hlo : inject_Z a - 1 < inject_Z b) by lra.
  assert (Hhi : inject_Z b < inject_Z a + 2) by lra.
  assert (Ha : (a <= b)%Z).
  { apply Z.lt_pred_le. rewrite Zlt_Qlt. unfold Z.pred.
    rewrite (inject_Z_plus a (-1)). change (inject_Z (-1)) with (-(1)). lra. }
  assert (Hb : (b <= a + 1)%Z).
  { apply Z.lt_succ_r. rewrite Zlt_Qlt. unfold Z.succ.
    rewrite !inject_Z_succ. lra. }
  destruct (Qcompare_spec (x - inject_Z a) (1 # 2)) as [E|E|E].
  - assert (b <> a)%Z; [|lia]. intros ->. lra.
  - assert (b <> a + 1)%Z; [|lia]. intros Hn. rewrite Hn, inject_Z_succ in L'. lra.
  - assert (b <> a)%Z; [|lia]. intros ->. lra.
Qed.

Lemma round_floor_same_distance (x : Q) :
  Qabs (x - inject_Z (Qround_even x)) == Qabs (x - inject_Z (Qfloor (x + (1 # 2)))).
Proof.
  rewrite Qround_even_spec, Qfloor_half.
  destruct (Qcompare_spec (x - inject_Z (Qfloor x)) (1 # 2)) as [E|E|E];
    try reflexivity.
  destruct (Z.even (Qfloor x)); [|reflexivity].
  rewrite inject_Z_succ.
  assert (E1 : x - inject_Z (Qfloor x) == 1 # 2) by exact E.
  assert (E2 : x - (inject_Z (Qfloor x) + 1) == - (1 # 2)) by lra.
  rewrite E1, E2. reflexivity.
Qed.

(** ** The exact instance, operation by operation *)

Lemma Qltb_lt (a b : Q) : Qltb a b = true <-> a < b.
Proof.
  unfold Qltb. rewrite negb_true_iff, <- not_true_iff_false, Qle_bool_iff.
  split; [apply Qnot_le_lt | apply Qlt_not_le].
Qed.

Lemma Qltb_ge (a b : Q) : Qltb a b = false <-> b <= a.
Proof.
  unfold Qltb. rewrite negb_false_iff. apply Qle_bool_iff.
Qed.

Lemma Qeq_bool_false (a b : Q) : Qeq_bool a b = false <-> ~ a == b.
Proof.
  rewrite <- not_true_iff_false, Qeq_bool_iff. reflexivity.
Qed.

#[export] Instance Qred_Qeq : Proper (Qeq ==> Qeq) Qred.
Proof. intros a b E. rewrite !Qred_correct. exact E. Qed.

(** Removes the reductions to lowest terms, which do not change the value. *)
Ltac unred :=
  repeat match goal with
         | |- context [Qred ?q] => setoid_rewrite (Qred_correct q) at 1
         end.

Lemma Fin_Qred (a b : Q) : a == b -> Fin (Qred a) = Fin (Qred b).
Proof. intros E. f_equal. apply Qred_complete, E. Qed.

(** Unfolds the code on the exact instance down to operations on [Q]. *)
Ltac on_exact :=
  cbv beta iota delta
    [cpd_to_days days_to_cpd calculate_alias_frequency
     calculate_subdaily_aliasing calculate_orbital_period
     peak_alias peak_period
     exact lit inf of_int fadd fsub fmul fdiv fabs feqb fltb fleb ffloor fround
     xadd xsub xmul xdiv xabs xeqb xltb xleb xfloor xround xopp bind].

(** Evaluates the literals and the tests on them. *)
Ltac has_var t := match t with context [?v] => is_var v end.

Ltac lits :=
  repeat (match goal with
          | |- context [Qred ?q] =>
              tryif has_var q then fail
              else (let r := eval vm_compute in (Qred q) in
                    progress change (Qred q) with r)
          | |- context [Qeq_bool ?a ?b] =>
              tryif has_var (a, b) then fail
              else (let r := eval vm_compute in (Qeq_bool a b) in
                    change (Qeq_bool a b) with r)
          end; cbv beta iota).

(** On exact arithmetic the two aliasing functions agree at a 1.0 cpd
    reference and 24-hour sampling. *)
Lemma alias_eq_subdaily_Q (f : Q) :
  calculate_alias_frequency (Fin f) (lit 1)
  = calculate_subdaily_aliasing (Fin f) (lit 24).
Proof.
  on_exact. lits. f_equal. apply Fin_Qred.
  change (round_half_even (Qnum ?x) (Qden ?x)) with (Qround_even x).
  rewrite !Qred_correct.
  assert (E1 : f / 1 == f) by field.
  assert (E2 : f * 1 == f) by ring.
  rewrite E1, E2, Qmult_1_r, Qmult_1_l.
  apply round_floor_same_distance.
Qed.

Lemma Qround_even_tie (x : Q) :
  Qabs (x - inject_Z (Qround_even x)) == 1 # 2 ->
  Z.even (Qround_even x) = true.
Proof.
  rewrite Qround_even_spec.
  destruct (Qfloor_bounds x) as [L U].
  destruct (Qcompare_spec (x - inject_Z (Qfloor x)) (1 # 2)) as [E|E|E].
  - destruct (Z.even (Qfloor x)) eqn:Ev; [auto|].
    intros _. rewrite Z.even_add, Ev. reflexivity.
  - intros T. exfalso.
    rewrite Qabs_pos in T by lra. lra.
  - rewrite inject_Z_succ. intros T. exfalso.
    rewrite Qabs_neg in T by lra. lra.
Qed.

Lemma nonzero_test (q : Q) : ~ q == 0 -> Qeq_bool (Qred q) 0 = false.
Proof.
  intros N. apply Qeq_bool_false. rewrite Qred_correct. exact N.
Qed.

(** ** Unit conversion *)

Lemma cpd_to_days_Q (f : Q) :
  ~ f == 0 -> cpd_to_days (Fin f) = Ok (Fin (Qred (1 / f))).
Proof.
  intros N. on_exact. lits.
  destruct (Qeq_bool f 0) eqn:E.
  - apply Qeq_bool_iff in E. contradiction.
  - reflexivity.
Qed.

Lemma days_to_cpd_Q (p : Q) :
  ~ p == 0 -> days_to_cpd (Fin p) = Ok (Fin (Qred (1 / p))).
Proof. exact (cpd_to_days_Q (f := p)). Qed.

(** ** Alias arithmetic *)

Lemma alias_frequency_Q (f r : Q) :
  calculate_alias_frequency (Fin f) (Fin r)
  = if Qeq_bool r 0
    then Ok (Fin (Qred (Qabs (Qred (f - inject_Z (Qround_even f))))))
    else Ok (Fin (Qred (Qabs (Qred
           (f - Qred (inject_Z (Qround_even (Qred (f / r))) * r)))))).
Proof.
  on_exact. lits. destruct (Qeq_bool r 0); reflexivity.
Qed.

Lemma subdaily_aliasing_Q (f h : Q) :
  0 < h ->
  exists a,
    calculate_subdaily_aliasing (Fin f) (Fin h) = Ok (Fin a) /\
    a == Qabs (f - (1 / (h / 24)) * inject_Z (Qfloor (f * (h / 24) + (1 # 2)))).
Proof.
  intros Hh. on_exact. lits.
  rewrite (nonzero_test (q := h / 24)).
  2:{ intros E. assert (E' : h == h / 24 * 24) by field.
      rewrite E in E'. lra. }
  eexists; split; [reflexivity|].
  unred. reflexivity.
Qed.

(** ** Orbital period formula *)

Lemma orbital_period_Q (n m : Z) (T_S T_E : Q) :
  0 < T_S -> 0 < T_E ->
  calculate_orbital_period n m (Fin T_S) (Fin T_E)
  = if ((n =? 0) && (m =? 0))%Z then Ok PInf
    else
      let den := Qred (Qred (inject_Z n / T_E) + Qred (inject_Z m / T_S)) in
      if Qltb (Qred (Qabs den)) (1 # 10000000000) then Ok PInf
      else if Qeq_bool den 0 then Raise ZeroDivisionError
           else Ok (Fin (Qred (Qabs (Qred (1 / den))))).
Proof.
  intros HS HE. on_exact. lits.
  destruct ((n =? 0) && (m =? 0))%Z; [reflexivity|].
  assert (NE : Qeq_bool T_E 0 = false) by (apply Qeq_bool_false; lra).
  assert (NS : Qeq_bool T_S 0 = false) by (apply Qeq_bool_false; lra).
  rewrite NE, NS. cbv beta iota zeta.
  repeat match goal with
         | |- context [if ?c then _ else _] => destruct c
         end; reflexivity.
Qed.

(* ================================================================== *)
(** * Unit conversion, aliasing and the orbital period *)

Lemma decode_neq (r s : result float) : decode r <> decode s -> r <> s.
Proof. intros N E. apply N. rewrite E. reflexivity. Qed.












(* ================================================================== *)
(** * Dictionaries *)

Section DictFacts.
Variables (K V : Type) (keq : K -> K -> bool).
Hypothesis keq_spec : forall a b, keq a b = true <-> a = b.

Lemma keq_refl (k : K) : keq k k = true.
Proof. apply keq_spec. reflexivity. Qed.

Lemma keq_neq (a b : K) : a <> b -> keq a b = false.
Proof.
  intros N. destruct (keq a b) eqn:E; [|reflexivity].
  apply keq_spec in E. contradiction.
Qed.

Lemma dict_get_not_key (k : K) (d : dict K V) :
  ~ In k (dict_keys d) -> dict_get keq k d = None.
Proof.
  induction d as [|[k' v] d IH]; simpl; intros N; [reflexivity|].
  rewrite keq_neq by (intros ->; apply N; left; reflexivity).
  apply IH. intros I. apply N. right. exact I.
Qed.

Lemma dict_set_fresh (k : K) (v : V) (d : dict K V) :
  ~ In k (dict_keys d) -> dict_set keq k v d = d ++ [(k, v)].
Proof.
  induction d as [|[k' v'] d IH]; simpl; intros N; [reflexivity|].
  rewrite keq_neq by (intros ->; apply N; left; reflexivity).
  f_equal. apply IH. intros I. apply N. right. exact I.
Qed.

Lemma dict_keys_set (k : K) (v : V) (d : dict K V) :
  In k (dict_keys d) -> dict_keys (dict_set keq k v d) = dict_keys d.
Proof.
  induction d as [|[k' v'] d IH]; simpl; intros I; [contradiction|].
  destruct (keq k k') eqn:E; [reflexivity|].
  simpl. f_equal. apply IH. destruct I as [I|I]; [|exact I].
  subst k'. rewrite keq_refl in E. discriminate.
Qed.

Lemma dict_get_key (k : K) (v : V) (d : dict K V) :
  dict_get keq k d = Some v -> In k (dict_keys d).
Proof.
  induction d as [|[k' v'] d IH]; simpl; [discriminate|].
  destruct (keq k k') eqn:E; [|intros G; right; apply IH, G].
  intros _. left. symmetry. apply keq_spec, E.
Qed.

Lemma dict_get_set_same (k : K) (v : V) (d : dict K V) :
  dict_get keq k (dict_set keq k v d) = Some v.
Proof.
  induction d as [|[k' v'] d IH]; simpl.
  - rewrite keq_refl. reflexivity.
  - destruct (keq k k') eqn:E; simpl; rewrite E; [reflexivity | exact IH].
Qed.

Lemma dict_get_set_other (k k' : K) (v : V) (d : dict K V) :
  k' <> k -> dict_get keq k' (dict_set keq k v d) = dict_get keq k' d.
Proof.
  intros N. induction d as [|[k0 v0] d IH]; simpl.
  - rewrite keq_neq by exact N. reflexivity.
  - destruct (keq k k0) eqn:E; simpl.
    + apply keq_spec in E. subst k0. rewrite keq_neq by exact N. reflexivity.
    + rewrite IH. reflexivity.
Qed.

(** Access to the entry of a key that does not occur before it. *)
Lemma dict_get_mid (k : K) (v : V) (d1 d2 : dict K V) :
  ~ In k (dict_keys d1) -> dict_get keq k (d1 ++ (k, v) :: d2) = Some v.
Proof.
  induction d1 as [|[k' v'] d1 IH]; simpl; intros N.
  - rewrite keq_refl. reflexivity.
  - rewrite keq_neq by (intros ->; apply N; left; reflexivity).
    apply IH. intros I. apply N. right. exact I.
Qed.

Lemma dict_set_mid (k : K) (v w : V) (d1 d2 : dict K V) :
  ~ In k (dict_keys d1) ->
  dict_set keq k w (d1 ++ (k, v) :: d2) = d1 ++ (k, w) :: d2.
Proof.
  induction d1 as [|[k' v'] d1 IH]; simpl; intros N.
  - rewrite keq_refl. reflexivity.
  - rewrite keq_neq by (intros ->; apply N; left; reflexivity).
    f_equal. apply IH. intros I. apply N. right. exact I.
Qed.

Lemma dict_del_mid (k : K) (v : V) (d1 d2 : dict K V) :
  ~ In k (dict_keys d1) ->
  dict_del keq k (d1 ++ (k, v) :: d2) = d1 ++ d2.
Proof.
  induction d1 as [|[k' v'] d1 IH]; simpl; intros N.
  - rewrite keq_refl. reflexivity.
  - rewrite keq_neq by (intros ->; apply N; left; reflexivity).
    f_equal. apply IH. intros I. apply N. right. exact I.
Qed.

Lemma dict_set_length (k : K) (v : V) (d : dict K V) :
  (1 <= List.length (dict_set keq k v d) <= S (List.length d))%nat /\
  (List.length d <= List.length (dict_set keq k v d))%nat.
Proof.
  induction d as [|[k' v'] d IH]; simpl; [lia|].
  destruct (keq k k'); simpl; lia.
Qed.
End DictFacts.

Lemma string_eqb_spec (a b : string) : String.eqb a b = true <-> a = b.
Proof. apply String.eqb_eq. Qed.

(* ================================================================== *)
(** * The peak classifier, on any arithmetic *)

Lemma band_names_NoDup : NoDup band_names.
Proof.
  unfold band_names.
  repeat (constructor; [simpl; intuition discriminate|]). constructor.
Qed.

(** An invariant that every iteration keeps holds after the loop. *)
Lemma foldM_invariant {A S : Type} (P : S -> Prop) (body : S -> A -> result S)
      (xs : list A) :
  (forall s x s', P s -> body s x = Ok s' -> P s') ->
  forall s s', P s -> foldM body xs s = Ok s' -> P s'.
Proof.
  intros Step. induction xs as [|x xs IH]; simpl; intros s s' Ps E.
  - injection E as <-. exact Ps.
  - apply bind_Ok in E as (s1 & E1 & E2). eapply IH; [|exact E2].
    eapply Step; eassumption.
Qed.

Section PeaksFacts.
Context {F : Type} `{PyFloat F}.

Lemma band_of_names (p : F) (b : string) :
  band_of p = Some b -> In b band_names.
Proof.
  unfold band_of, band_names.
  repeat match goal with
         | |- context [if ?c then _ else _] => destruct c
         end; intros E; try discriminate; injection E as <-; simpl; auto 10.
Qed.

Lemma peaks_assign_keys (band label : string) (v : F) (peaks peaks' : peaks_t) :
  peaks_assign band label v peaks = Ok peaks' ->
  dict_keys peaks' = dict_keys peaks.
Proof.
  unfold peaks_assign. destruct (dict_get String.eqb band peaks) eqn:G;
    [|discriminate].
  intros E. injection E as <-.
  apply (dict_keys_set String.eqb string_eqb_spec).
  eapply dict_get_key; [exact string_eqb_spec | exact G].
Qed.

Lemma peak_step_keys (d b : F) (mult k : Z) (peaks peaks' : peaks_t) :
  peak_step d b mult peaks k = Ok peaks' ->
  dict_keys peaks' = dict_keys peaks.
Proof.
  unfold peak_step. intros E.
  apply bind_Ok in E as (k' & _ & E).
  apply bind_Ok in E as (a & _ & E).
  apply bind_Ok in E as (p & _ & E).
  destruct (band_of p).
  - eapply peaks_assign_keys, E.
  - injection E as <-. reflexivity.
Qed.

Lemma collect_peaks_keys (fu fd : F) (hr : Z * Z) (peaks : peaks_t) :
  collect_peaks fu fd hr = Ok peaks -> dict_keys peaks = band_names.
Proof.
  unfold collect_peaks. destruct hr as [lo hi].
  apply (foldM_invariant (fun p : peaks_t => dict_keys p = band_names));
    [|reflexivity].
  intros s mult s' Ps E. apply bind_Ok in E as (m' & _ & E).
  eapply (foldM_invariant (fun p : peaks_t => dict_keys p = band_names));
    [|exact Ps|exact E].
  intros s1 k s2 P1 E1. rewrite <- P1. eapply peak_step_keys, E1.
Qed.

(** The closing loop, on a table with distinct keys. *)
Lemma prune_loop (done todo : peaks_t) :
  NoDup (dict_keys (done ++ todo)) ->
  foldM prune_step (dict_keys todo) (done ++ todo)
  = Ok (done ++ pruned todo).
Proof.
  revert done. induction todo as [|[b d] todo IH]; intros done ND.
  - reflexivity.
  - assert (Nb : ~ In b (dict_keys done)).
    { unfold dict_keys in *. rewrite map_app in ND. simpl in ND.
      apply NoDup_remove_2 in ND. intros I. apply ND, in_or_app. auto. }
    simpl. unfold prune_step at 1.
    rewrite (dict_get_mid String.eqb string_eqb_spec) by exact Nb.
    destruct d as [|x d].
    + rewrite (dict_del_mid String.eqb string_eqb_spec) by exact Nb.
      simpl. apply IH.
      unfold dict_keys in *. rewrite map_app in *. simpl in ND.
      eapply NoDup_remove_1, ND.
    + rewrite (dict_set_mid String.eqb string_eqb_spec) by exact Nb.
      simpl.
      change (done ++ (b, top10 (x :: d)) :: todo)
        with (done ++ [(b, top10 (x :: d))] ++ todo).
      rewrite app_assoc. rewrite IH; [rewrite <- app_assoc; reflexivity|].
      rewrite <- app_assoc. simpl.
      unfold dict_keys in *. rewrite map_app in *. exact ND.
Qed.

Lemma prune_peaks_pruned (peaks : peaks_t) :
  NoDup (dict_keys peaks) -> prune_peaks peaks = Ok (pruned peaks).
Proof. intros ND. exact (prune_loop [] peaks ND). Qed.

(** Sizes. *)
Lemma insert_desc_length (x : string * F) (l : list (string * F)) :
  List.length (insert_desc x l) = S (List.length l).
Proof.
  induction l as [|y l IH]; simpl; [reflexivity|].
  destruct (fltb (snd x) (snd y)); simpl; [rewrite IH|]; reflexivity.
Qed.

Lemma sorted_desc_length (l : list (string * F)) :
  List.length (sorted_desc l) = List.length l.
Proof.
  induction l as [|x l IH]; simpl; [reflexivity|].
  rewrite insert_desc_length, IH. reflexivity.
Qed.

Lemma dict_of_items_length (l : list (string * F)) (acc : dict string F) :
  let r := fold_left (fun d kv => dict_set String.eqb (fst kv) (snd kv) d) l acc in
  (List.length acc <= List.length r <= List.length acc + List.length l)%nat /\
  (l <> [] -> 1 <= List.length r)%nat.
Proof.
  revert acc. induction l as [|[k v] l IH]; intros acc; simpl.
  - split; [lia|]. intros N. contradiction.
  - specialize (IH (dict_set String.eqb k v acc)).
    pose proof (dict_set_length String.eqb k v acc) as L.
    simpl in IH. destruct IH as [IH1 IH2]. split; [lia|].
    intros _. lia.
Qed.

Lemma top10_length (d : dict string F) :
  d <> [] -> (1 <= List.length (top10 d) <= 10)%nat.
Proof.
  intros N. unfold top10, dict_of_items.
  pose proof (dict_of_items_length (firstn 10 (sorted_desc d)) []) as L.
  cbv zeta in L. destruct L as [[_ L1] L2].
  rewrite length_firstn in L1. cbn [List.length Nat.add] in L1.
  split; [|lia].
  apply L2. intros E.
  apply (f_equal (@List.length _)) in E.
  rewrite length_firstn, sorted_desc_length in E. simpl in E.
  destruct d; [contradiction|simpl in E; lia].
Qed.
End PeaksFacts.

(** C4.  Whatever the two input frequencies and the harmonic range, when
    [calculate_orbital_peaks] returns, its result is the collected table
    with the empty bands removed and every other band replaced by its ten
    largest entries in descending order; so every band in the result holds
    at least 1 and at most 10 entries.  (Any arithmetic, binary64
    included.) *)
Theorem orbital_peaks_band_sizes
        {F : Type} `{PyFloat F} (fu fd : F) (hr : Z * Z) (res : peaks_t) :
  calculate_orbital_peaks fu fd hr = Ok res ->
  (exists raw, collect_peaks fu fd hr = Ok raw /\ res = pruned raw) /\
  forall band entries,
    In (band, entries) res -> (1 <= List.length entries <= 10)%nat.
Proof.
  unfold calculate_orbital_peaks. intros E.
  apply bind_Ok in E as (raw & Eraw & E).
  pose proof (collect_peaks_keys _ _ _ Eraw) as Kraw.
  rewrite prune_peaks_pruned in E
    by (rewrite Kraw; exact band_names_NoDup).
  injection E as <-. split; [exists raw; auto|].
  intros band entries I. unfold pruned in I.
  apply in_flat_map in I as ([b d] & _ & I). simpl in I.
  destruct d as [|x d]; [contradiction|].
  destruct I as [I|[]]. injection I as _ <-.
  apply top10_length. discriminate.
Qed.

Lemma orbital_peaks_band_sizes_witness :
  exists res,
    calculate_orbital_peaks (F := float) (lit 2.1281882) (lit 0.0028300)
                            default_harmonics_range = Ok res /\
    (exists raw, collect_peaks (F := float) (lit 2.1281882) (lit 0.0028300)
                               default_harmonics_range = Ok raw /\
                 res = pruned raw) /\
    forall band entries,
      In (band, entries) res -> (1 <= List.length entries <= 10)%nat.
Proof.
  eexists. split; [vm_compute; reflexivity|].
  apply orbital_peaks_band_sizes. vm_compute. reflexivity.
Defined.

(* ================================================================== *)
(** * The peak classifier, on exact arithmetic *)

Lemma alias_of_bounds (c : Q) : 0 <= alias_of c <= 1 # 2.
Proof. split; [apply Qabs_nonneg | apply Qround_even_nearest]. Qed.

Lemma peak_alias_Q (c : Q) : peak_alias (Fin c) = Ok (Fin (Qred (alias_of c))).
Proof.
  on_exact. f_equal. apply Fin_Qred. unfold alias_of. unred. reflexivity.
Qed.

Lemma peak_period_Q (a : Q) :
  0 <= a ->
  peak_period (Fin a) = Ok (if Qltb 0 a then Fin (Qred (1 / a)) else PInf).
Proof.
  intros Ha. on_exact. lits. destruct (Qltb 0 a) eqn:L; [|reflexivity].
  apply Qltb_lt in L.
  assert (N : Qeq_bool a 0 = false) by (apply Qeq_bool_false; lra).
  rewrite N. reflexivity.
Qed.

Lemma band_of_PInf : band_of PInf = None.
Proof. reflexivity. Qed.

Lemma peak_step_Q (fd b : Q) (mult k : Z) (peaks : peaks_t) :
  let a := Qred (alias_of (Qred (b + Qred (inject_Z k * fd)))) in
  peak_step (Fin fd) (Fin b) mult peaks k
  = match band_of_alias a with
    | Some band => peaks_assign band (peak_label mult k) (Fin a) peaks
    | None => Ok peaks
    end.
Proof.
  intros a. unfold peak_step.
  change (of_int k) with (Ok (Fin (inject_Z k))).
  cbv beta iota delta [bind].
  change (fadd (Fin b) (fmul (Fin (inject_Z k)) (Fin fd)))
    with (Fin (Qred (b + Qred (inject_Z k * fd)))).
  rewrite peak_alias_Q. fold a.
  rewrite peak_period_Q
    by (unfold a; rewrite Qred_correct; apply alias_of_bounds).
  unfold band_of_alias. destruct (Qltb 0 a); [reflexivity|].
  rewrite band_of_PInf. reflexivity.
Qed.

Lemma band_of_Q (q : Q) :
  band_of (Fin q)
  = if Qltb 6 q && Qle_bool q 12 then Some "8d_peaks"%string
    else if Qltb 3 q && Qle_bool q 6 then Some "4d_peaks"%string
    else if Qltb 2 q && Qle_bool q (7 # 2) then Some "2-7d_peaks"%string
    else if Qltb (3 # 2) q && Qle_bool q (5 # 2) then Some "2d_peaks"%string
    else if Qltb (1 # 2) q && Qle_bool q (3 # 2) then Some "1d_peaks"%string
    else None.
Proof. reflexivity. Qed.

(** Turns the outcome of a test [lo < q <= hi] into the inequalities. *)
Ltac test_to_prop E :=
  first [ apply andb_true_iff in E as [?L ?U];
          apply Qltb_lt in L; apply Qle_bool_iff in U
        | apply andb_false_iff in E as [E|E];
          [ apply Qltb_ge in E
          | apply not_true_iff_false in E; rewrite Qle_bool_iff in E;
            apply Qnot_le_lt in E ] ].

(** The bands as intervals of the period, in the order of the tests. *)
Lemma band_of_intervals (q : Q) :
  (band_of (Fin q) = Some "8d_peaks"%string <-> 6 < q <= 12) /\
  (band_of (Fin q) = Some "4d_peaks"%string <-> 3 < q <= 6) /\
  (band_of (Fin q) = Some "2-7d_peaks"%string <-> 2 < q <= 3) /\
  (band_of (Fin q) = Some "2d_peaks"%string <-> 1.5 < q <= 2) /\
  (band_of (Fin q) = Some "1d_peaks"%string <-> 0.5 < q <= 1.5) /\
  (band_of (Fin q) = None <-> q <= 0.5 \/ 12 < q).
Proof.
  rewrite band_of_Q.
  destruct (Qltb 6 q && Qle_bool q 12) eqn:C8; test_to_prop C8;
    [repeat split; intros; try discriminate; lra| |].
  all: destruct (Qltb 3 q && Qle_bool q 6) eqn:C4; test_to_prop C4;
    try (repeat split; intros; try discriminate; lra).
  all: destruct (Qltb 2 q && Qle_bool q (7 # 2)) eqn:C27; test_to_prop C27;
    try (repeat split; intros; try discriminate; lra).
  all: destruct (Qltb (3 # 2) q && Qle_bool q (5 # 2)) eqn:C2; test_to_prop C2;
    try (repeat split; intros; try discriminate; lra).
  all: destruct (Qltb (1 # 2) q && Qle_bool q (3 # 2)) eqn:C1; test_to_prop C1;
    try (repeat split; intros; try discriminate; lra).
Qed.

(** A loop whose every iteration succeeds and keeps an invariant succeeds
    and keeps it. *)
Lemma foldM_total {A S : Type} (P : S -> Prop) (body : S -> A -> result S)
      (xs : list A) :
  (forall s x, P s -> exists s', body s x = Ok s' /\ P s') ->
  forall s, P s -> exists s', foldM body xs s = Ok s' /\ P s'.
Proof.
  intros Step. induction xs as [|x xs IH]; simpl; intros s Ps.
  - exists s. auto.
  - destruct (Step s x Ps) as (s1 & E1 & P1). rewrite E1. simpl.
    apply IH, P1.
Qed.

Lemma dict_get_present {V : Type} (k : string) (d : dict string V) :
  In k (dict_keys d) -> exists v, dict_get String.eqb k d = Some v.
Proof.
  induction d as [|[k' v'] d IH]; simpl; [contradiction|].
  destruct (String.eqb k k') eqn:E; [eauto|].
  intros [I|I]; [|apply IH, I].
  subst k'. rewrite String.eqb_refl in E. discriminate.
Qed.

(** An alias is at most one half, so its period is at least two days. *)
Lemma band_of_alias_not_1d (c : Q) :
  band_of_alias (Qred (alias_of c)) <> Some "1d_peaks"%string.
Proof.
  unfold band_of_alias. set (a := Qred (alias_of c)).
  assert (Ha : 0 <= a <= 1 # 2)
    by (unfold a; rewrite Qred_correct; apply alias_of_bounds).
  destruct (Qltb 0 a) eqn:L; [|discriminate].
  apply Qltb_lt in L. intros B.
  apply band_of_intervals in B. rewrite Qred_correct in B.
  assert (E : 1 / a * a == 1) by (field; lra).
  destruct B as [_ B]. nra.
Qed.

Lemma peak_step_one_day_empty (fd b : Q) (mult k : Z) (peaks : peaks_t) :
  one_day_empty peaks ->
  exists peaks', peak_step (Fin fd) (Fin b) mult peaks k = Ok peaks' /\
                 one_day_empty peaks'.
Proof.
  intros [Kp G]. rewrite peak_step_Q. cbv zeta.
  pose proof (band_of_alias_not_1d (Qred (b + Qred (inject_Z k * fd)))) as N1.
  destruct (band_of_alias _) as [band|] eqn:B; [|exists peaks; split; [auto|split; auto]].
  assert (Ib : In band band_names).
  { unfold band_of_alias in B. destruct (Qltb 0 _); [|discriminate].
    eapply (band_of_names (F := xreal)), B. }
  unfold peaks_assign.
  destruct (@dict_get_present _ band peaks) as [d Gd]; [rewrite Kp; exact Ib|].
  rewrite Gd. eexists; split; [reflexivity|]. split.
  - rewrite (dict_keys_set String.eqb string_eqb_spec); [exact Kp|].
    rewrite Kp. exact Ib.
  - rewrite (dict_get_set_other String.eqb string_eqb_spec); [exact G|].
    intros E. apply N1. rewrite <- E. reflexivity.
Qed.

Lemma collect_peaks_one_day_empty (fu fd : Q) (hr : Z * Z) :
  exists raw, collect_peaks (Fin fu) (Fin fd) hr = Ok raw /\ one_day_empty raw.
Proof.
  unfold collect_peaks. destruct hr as [lo hi].
  apply foldM_total; [|split; reflexivity].
  intros s mult Ps.
  change (of_int mult) with (Ok (Fin (inject_Z mult))).
  cbv beta iota delta [bind].
  change (fmul (Fin (inject_Z mult)) (Fin fu))
    with (Fin (Qred (inject_Z mult * fu))).
  apply foldM_total; [|exact Ps].
  intros s1 k P1. apply peak_step_one_day_empty, P1.
Qed.

Lemma pruned_drops_empty {F : Type} `{PyFloat F} (k : string) (peaks : peaks_t) :
  NoDup (dict_keys peaks) ->
  dict_get String.eqb k peaks = Some [] ->
  dict_get String.eqb k (pruned peaks) = None.
Proof.
  intros ND G.
  apply (dict_get_not_key String.eqb string_eqb_spec).
  induction peaks as [|[b d] peaks IH]; simpl in *; [auto|].
  apply NoDup_cons_iff in ND as [Nb ND].
  destruct (String.eqb k b) eqn:E.
  - apply String.eqb_eq in E. subst b. injection G as ->. simpl.
    intros I. apply Nb. unfold pruned, dict_keys in I.
    apply in_map_iff in I as ([b' d'] & <- & I).
    apply in_flat_map in I as ([b2 d2] & I2 & I).
    simpl in I. destruct d2; [contradiction|]. destruct I as [I|[]].
    injection I as <- _. apply in_map_iff. exists (b2, p :: d2). auto.
  - specialize (IH ND G). apply String.eqb_neq in E.
    destruct d; simpl; [exact IH|]. intros [I|I]; [congruence|auto].
Qed.


(* ------------------------------------------------------------------ *)
(** ** What the collecting loops build *)

Lemma nodupb_NoDup {A : Type} (eqb : A -> A -> bool) (l : list A) :
  (forall x, eqb x x = true) -> nodupb eqb l = true -> NoDup l.
Proof.
  intros R. induction l as [|x l IH]; simpl; intros E; [constructor|].
  apply andb_true_iff in E as [N E]. constructor; [|apply IH, E].
  intros I. apply negb_true_iff in N.
  assert (T : existsb (eqb x) l = true)
    by (apply existsb_exists; exists x; split; [exact I | apply R]).
  congruence.
Qed.

Lemma default_labels_NoDup : NoDup (map pair_label default_pairs).
Proof.
  apply (nodupb_NoDup String.eqb); [apply String.eqb_refl|].
  vm_compute. reflexivity.
Qed.

#[export] Instance alias_of_comp : Proper (Qeq ==> Qeq) alias_of.
Proof.
  intros x y E. unfold alias_of. rewrite (Qround_even_comp E), E. reflexivity.
Qed.

Section Collect.
Variables fu fd : Q.

Lemma band_entries_keys (b : string) (l : list (Z * Z)) (s : string) :
  In s (dict_keys (band_entries fu fd b l)) -> In s (map pair_label l).
Proof.
  unfold band_entries, dict_keys. rewrite map_map. simpl.
  intros I. apply in_map_iff in I as (mk & <- & I).
  apply filter_In in I as [I _]. apply in_map, I.
Qed.

Lemma band_entries_snoc (b : string) (l : list (Z * Z)) (mk : Z * Z) :
  band_entries fu fd b (l ++ [mk])
  = band_entries fu fd b l
    ++ (if in_band fu fd b mk
        then [(pair_label mk, Fin (pair_alias fu fd mk))] else []).
Proof.
  unfold band_entries. rewrite filter_app, map_app. simpl.
  destruct (in_band fu fd b mk); reflexivity.
Qed.

Lemma peak_step_collected (l : list (Z * Z)) (mult k : Z) (peaks : peaks_t) :
  collected fu fd l peaks ->
  ~ In (pair_label (mult, k)) (map pair_label l) ->
  exists peaks',
    peak_step (Fin fd) (Fin (Qred (inject_Z mult * fu))) mult peaks k
    = Ok peaks' /\
    collected fu fd (l ++ [(mult, k)]) peaks'.
Proof.
  intros [Kp G] Fresh. rewrite peak_step_Q. cbv zeta.
  replace (Qred (alias_of (Qred (Qred (inject_Z mult * fu)
                                 + Qred (inject_Z k * fd)))))
    with (pair_alias fu fd (mult, k)).
  2:{ unfold pair_alias, combined. apply Qred_complete. cbn [fst snd].
      unred. reflexivity. }
  fold (pair_band fu fd (mult, k)).
  destruct (pair_band fu fd (mult, k)) as [band|] eqn:B.
  - assert (Ib : In band band_names).
    { unfold pair_band, band_of_alias in B. destruct (Qltb 0 _); [|discriminate].
      eapply (band_of_names (F := xreal)), B. }
    unfold peaks_assign. rewrite (G band Ib).
    eexists; split; [reflexivity|]. split.
    + rewrite (dict_keys_set String.eqb string_eqb_spec); [exact Kp|].
      rewrite Kp. exact Ib.
    + intros b Hb. rewrite band_entries_snoc. unfold in_band. rewrite B.
      destruct (String.eqb band b) eqn:E.
      * apply String.eqb_eq in E. subst b.
        rewrite (dict_get_set_same String.eqb string_eqb_spec). f_equal.
        apply (dict_set_fresh String.eqb string_eqb_spec).
        intros I. apply Fresh. eapply band_entries_keys, I.
      * apply String.eqb_neq in E.
        rewrite (dict_get_set_other String.eqb string_eqb_spec) by congruence.
        rewrite app_nil_r. apply G, Hb.
  - exists peaks. split; [reflexivity|]. split; [exact Kp|].
    intros b Hb. rewrite band_entries_snoc. unfold in_band. rewrite B.
    rewrite app_nil_r. apply G, Hb.
Qed.

Lemma inner_loop_collected (mult : Z) (ks : list Z) :
  forall (l : list (Z * Z)) (peaks : peaks_t),
    collected fu fd l peaks ->
    NoDup (map pair_label (l ++ map (pair mult) ks)) ->
    exists peaks',
      foldM (peak_step (Fin fd) (Fin (Qred (inject_Z mult * fu))) mult)
            ks peaks = Ok peaks' /\
      collected fu fd (l ++ map (pair mult) ks) peaks'.
Proof.
  induction ks as [|k ks IH]; intros l peaks C ND; cbn [foldM map] in *.
  - exists peaks. rewrite app_nil_r. auto.
  - assert (Fresh : ~ In (pair_label (mult, k)) (map pair_label l)).
    { rewrite map_app in ND. cbn [map] in ND.
      apply NoDup_remove_2 in ND. intros I. apply ND, in_or_app. auto. }
    destruct (@peak_step_collected l mult k peaks C Fresh) as (p1 & E1 & C1).
    rewrite E1. cbn [bind].
    replace (l ++ (mult, k) :: map (pair mult) ks)
      with ((l ++ [(mult, k)]) ++ map (pair mult) ks)
      in * by (rewrite <- app_assoc; reflexivity).
    apply IH; assumption.
Qed.

Lemma outer_loop_collected (ks : list Z) (ms : list Z) :
  forall (l : list (Z * Z)) (peaks : peaks_t),
    collected fu fd l peaks ->
    NoDup (map pair_label (l ++ list_prod ms ks)) ->
    exists peaks',
      foldM (fun peaks mult =>
               mult' <- of_int mult ;;
               foldM (peak_step (Fin fd) (fmul mult' (Fin fu)) mult) ks peaks)%py
            ms peaks = Ok peaks' /\
      collected fu fd (l ++ list_prod ms ks) peaks'.
Proof.
  induction ms as [|m ms IH]; intros l peaks C ND; cbn [foldM list_prod] in *.
  - exists peaks. rewrite app_nil_r. auto.
  - rewrite app_assoc in ND |- *.
    change (of_int m) with (Ok (Fin (inject_Z m))). cbn [bind].
    assert (ND1 : NoDup (map pair_label (l ++ map (pair m) ks))).
    { rewrite map_app in ND. apply NoDup_app_remove_r in ND. exact ND. }
    destruct (@inner_loop_collected m ks l peaks C ND1) as (p1 & E1 & C1).
    change (fmul (Fin (inject_Z m)) (Fin fu))
      with (Fin (Qred (inject_Z m * fu))).
    rewrite E1. cbn [bind]. apply IH; assumption.
Qed.

Lemma collect_peaks_default :
  exists raw,
    collect_peaks (Fin fu) (Fin fd) default_harmonics_range = Ok raw /\
    collected fu fd default_pairs raw.
Proof.
  apply (@outer_loop_collected
           [-6; -5; -4; -3; -2; -1; 0; 1; 2; 3; 4; 5; 6]%Z [1; 2; 3; 4]%Z
           [] empty_peaks).
  - split; [reflexivity|]. intros b Hb. simpl in Hb.
    repeat (destruct Hb as [<-|Hb]; [reflexivity|]). contradiction.
  - exact default_labels_NoDup.
Qed.
End Collect.

Lemma NoDup_map_inj {A B : Type} (f : A -> B) (l : list A) (x y : A) :
  NoDup (map f l) -> In x l -> In y l -> f x = f y -> x = y.
Proof.
  induction l as [|a l IH]; simpl; intros ND Ix Iy E; [contradiction|].
  apply NoDup_cons_iff in ND as [Na ND].
  destruct Ix as [->|Ix], Iy as [->|Iy]; auto.
  - exfalso. apply Na. rewrite E. apply in_map, Iy.
  - exfalso. apply Na. rewrite <- E. apply in_map, Ix.
Qed.

(** A pair is filed under band [b] exactly when [b] is the band of its
    alias: under one band at most. *)
Lemma band_entries_member (fu fd : Q) (b : string) (l : list (Z * Z))
      (mk : Z * Z) :
  NoDup (map pair_label l) -> In mk l ->
  (In (pair_label mk) (dict_keys (band_entries fu fd b l))
   <-> pair_band fu fd mk = Some b).
Proof.
  intros ND I. unfold band_entries, dict_keys. rewrite map_map. cbn [fst].
  split.
  - intros M. apply in_map_iff in M as (mk' & E & M).
    apply filter_In in M as [I' B].
    assert (mk' = mk) by (eapply NoDup_map_inj; eassumption). subst mk'.
    unfold in_band in B. destruct (pair_band fu fd mk) as [b'|]; [|discriminate].
    apply String.eqb_eq in B. congruence.
  - intros B. apply in_map_iff. exists mk. split; [reflexivity|].
    apply filter_In. split; [exact I|].
    unfold in_band. rewrite B. apply String.eqb_refl.
Qed.

Lemma pair_period (fu fd : Q) (mk : Z * Z) :
  let a := pair_alias fu fd mk in
  exists p, peak_period (Fin a) = Ok p /\
            pair_band fu fd mk = band_of p /\
            (0 < a -> p = Fin (Qred (1 / a))) /\
            (a == 0 -> p = PInf).
Proof.
  intros a.
  assert (Ha : 0 <= a)
    by (unfold a, pair_alias; rewrite Qred_correct; apply alias_of_bounds).
  rewrite (peak_period_Q Ha). eexists; split; [reflexivity|].
  unfold pair_band, band_of_alias. fold a.
  destruct (Qltb 0 a) eqn:L.
  - apply Qltb_lt in L. repeat split; auto. intros E. lra.
  - apply Qltb_ge in L. repeat split; auto. intros P. lra.
Qed.



(* ================================================================== *)
(** * The catalogue *)

Lemma create_gnss_frequencies_binary64 :
  create_gnss_frequencies (F := float) = Ok catalogue64.
Proof. vm_compute. reflexivity. Qed.

Lemma create_gnss_frequencies_exact :
  create_gnss_frequencies (F := xreal) = Ok catalogueQ.
Proof. vm_compute. reflexivity. Qed.

Lemma key_eqb_refl (k : key) : key_eqb k k = true.
Proof. destruct k; simpl; [apply String.eqb_refl | apply Z.eqb_refl]. Qed.

(** C6, as stated, fails: the catalogue stores the GPS nodal precession
    frequency, the literal [-0.0001075], which is negative (in binary64 and
    in exact arithmetic alike). *)
Lemma catalogue_has_negative_value :
  @has_negative_value float _ /\ @has_negative_value xreal _.
Proof.
  split.
  - exists catalogue64. split; [exact create_gnss_frequencies_binary64|].
    split; [vm_compute; reflexivity|].
    split; [vm_compute; reflexivity|].
    split; [vm_compute; reflexivity|].
    intros A.
    specialize (A [KStr "nodal_precession_frequency"; KStr "gps"]
                  (lit (-0.0001075))).
    assert (E : fleb (F := float) (lit 0) (lit (-0.0001075)) = false)
      by (vm_compute; reflexivity).
    rewrite A in E; [discriminate|].
    vm_compute. right. right. right. left. reflexivity.
  - exists catalogueQ. split; [exact create_gnss_frequencies_exact|].
    split; [vm_compute; reflexivity|].
    split; [vm_compute; reflexivity|].
    split; [vm_compute; reflexivity|].
    intros A.
    specialize (A [KStr "nodal_precession_frequency"; KStr "gps"]
                  (lit (-0.0001075))).
    assert (E : fleb (F := xreal) (lit 0) (lit (-0.0001075)) = false)
      by (vm_compute; reflexivity).
    rewrite A in E; [discriminate|].
    vm_compute. right. right. right. left. reflexivity.
Qed.

(** C6, amended.  Every number stored in the catalogue returned by
    [create_gnss_frequencies] is non-negative, except the three
    [nodal_precession_frequency] parameters (GPS, GLONASS, Galileo), which
    are negative.  (Evaluated in binary64 and in exact arithmetic.) *)
Theorem catalogue_signs :
  @nonnegative_but_nodal_precession float _ /\
  @nonnegative_but_nodal_precession xreal _.
Proof.
  split.
  - exists catalogue64. split; [exact create_gnss_frequencies_binary64|].
    split; vm_compute; reflexivity.
  - exists catalogueQ. split; [exact create_gnss_frequencies_exact|].
    split; vm_compute; reflexivity.
Qed.

(** The decimal literals of the source, as [lit] reads them in binary64,
    are the floats that the parser of float literals gives. *)
#[warnings="-inexact-float"] Lemma decimal_literals_binary64 :
  (lit 0.0028453 = 0.0028453 /\ lit 1.0028507 = 1.0028507 /\
   lit 0.1253540 = 0.1253540 /\ lit 0.1015706 = 0.1015706 /\
   lit (-0.0001075) = -0.0001075 /\ lit 2.0057014 = 2.0057014 /\
   lit 23.9345 = 23.9345 /\ lit 11.967 = 11.967 /\
   lit 1e-10 = 1e-10 /\ lit 0.5 = 0.5 /\ lit 3.5 = 3.5 /\ lit 24 = 24)%float.
Proof. repeat split; vm_compute; reflexivity. Qed.

(** C7.  In the catalogue returned by [create_gnss_frequencies],
    ["gps"]["draconitic_frequency"] is the literal 0.0028453 itself (in
    binary64 the float [0x1.74f06ce505a8bp-9]), and ["aliases"] holds
    exactly four entries per tide constant, 32 for the 8 tides: in order,
    the alias of each tide against 1.0 and against the GPS, Galileo and
    GLONASS ground-repeat frequencies, under distinct keys.  (Evaluated in
    binary64 and in exact arithmetic.) *)
Theorem catalogue_draconitic_and_aliases :
  (create_gnss_frequencies (F := float) = Ok catalogue64 /\
   catalogue_shape catalogue64 /\
   lit (F := float) 0.0028453 = 0x1.74f06ce505a8bp-9%float) /\
  (create_gnss_frequencies (F := xreal) = Ok catalogueQ /\
   catalogue_shape catalogueQ /\
   lit (F := xreal) 0.0028453 = Fin (28453 # 10000000)).
Proof.
  split.
  - split; [exact create_gnss_frequencies_binary64|].
    split; [|vm_compute; reflexivity].
    unfold catalogue_shape. cbv zeta.
    repeat (split; [vm_compute; reflexivity|]).
    split; [|vm_compute; reflexivity].
    apply (nodupb_NoDup key_eqb); [apply key_eqb_refl|]. vm_compute. reflexivity.
  - split; [exact create_gnss_frequencies_exact|].
    split; [|vm_compute; reflexivity].
    unfold catalogue_shape. cbv zeta.
    repeat (split; [vm_compute; reflexivity|]).
    split; [|vm_compute; reflexivity].
    apply (nodupb_NoDup key_eqb); [apply key_eqb_refl|]. vm_compute. reflexivity.
Qed.


(* ================================================================== *)
(** * The same calls in binary64 *)

(** [round] in binary64: ties go to the even integer. *)
Lemma round_ties_binary64 :
  map round64 [0.5; 1.5; 2.5; 3.5; -0.5; -1.5]%float
  = [Ok 0; Ok 2; Ok 2; Ok 4; Ok 0; Ok (-2)]%Z.
Proof. vm_compute. reflexivity. Qed.

(** The orbital period of a pair of the signals table, and the two
    undefined cases. *)
Lemma orbital_period_binary64 :
  calculate_orbital_period (F := float) (-4) 1 (lit 11.967) (lit 23.9345)
  = Ok 0x1.7ef5c294f7cb2p+3%float /\
  calculate_orbital_period (F := float) 0 0 (lit 11.967) (lit 23.9345)
  = Ok inf /\
  calculate_orbital_period (F := float) 1 (-1) (lit 12) (lit 12) = Ok inf.
Proof. repeat split; vm_compute; reflexivity. Qed.

(** The two peak tables of the catalogue hold the bands "8d_peaks",
    "4d_peaks" and "2-7d_peaks", ten entries each. *)
Lemma orbital_peaks_binary64 :
  map (fun bd => (fst bd, List.length (snd bd)))
      (value_of (calculate_orbital_peaks (F := float) (lit 2.1281882)
                   (lit 0.0028300) default_harmonics_range))
  = [("8d_peaks", 10); ("4d_peaks", 10); ("2-7d_peaks", 10)]%string%nat /\
  map (fun bd => (fst bd, List.length (snd bd)))
      (value_of (calculate_orbital_peaks (F := float) (lit 1.7238896)
                   (lit 0.0028104) default_harmonics_range))
  = [("8d_peaks", 10); ("4d_peaks", 10); ("2-7d_peaks", 10)]%string%nat.
Proof. split; vm_compute; reflexivity. Qed.


(* ================================================================== *)
(** * Further properties of the alias arithmetic *)

Lemma inject_Z_pred (a : Z) : inject_Z (a - 1) == inject_Z a - 1.
Proof.
  unfold Z.sub. rewrite inject_Z_plus, inject_Z_opp. reflexivity.
Qed.

(** Two integers within one half of [x] are at the same distance of it. *)
Lemma nearest_distance_unique (x : Q) (z1 z2 : Z) :
  Qabs (x - inject_Z z1) <= 1 # 2 -> Qabs (x - inject_Z z2) <= 1 # 2 ->
  Qabs (x - inject_Z z1) == Qabs (x - inject_Z z2).
Proof.
  intros B1 B2.
  apply Qabs_Qle_condition in B1 as [L1 U1].
  apply Qabs_Qle_condition in B2 as [L2 U2].
  assert (H1 : (z1 - 1 <= z2)%Z).
  { rewrite Zle_Qle, inject_Z_pred. lra. }
  assert (H2 : (z2 <= z1 + 1)%Z).
  { rewrite Zle_Qle. rewrite inject_Z_succ. lra. }
  assert (C : (z2 = z1 \/ z2 = z1 + 1 \/ z2 = z1 - 1)%Z) by lia.
  destruct C as [->|[->| ->]]; [reflexivity| |].
  - rewrite inject_Z_succ in *.
    assert (E : x - inject_Z z1 == 1 # 2) by lra.
    assert (E' : x - (inject_Z z1 + 1) == - (1 # 2)) by lra.
    rewrite E, E'. reflexivity.
  - rewrite inject_Z_pred in *.
    assert (E : x - inject_Z z1 == - (1 # 2)) by lra.
    assert (E' : x - (inject_Z z1 - 1) == 1 # 2) by lra.
    rewrite E, E'. reflexivity.
Qed.

Lemma effective_reference_nonzero (r : Q) : ~ effective_reference r == 0.
Proof.
  unfold effective_reference. destruct (Qeq_bool r 0) eqn:E.
  - intros H. discriminate H.
  - apply Qeq_bool_false, E.
Qed.

(** The value that [calculate_alias_frequency] returns. *)
Lemma alias_frequency_value (f r : Q) :
  calculate_alias_frequency (Fin f) (Fin r)
  = Ok (Fin (Qred (fold_distance f (effective_reference r)))).
Proof.
  rewrite alias_frequency_Q. unfold effective_reference, fold_distance.
  destruct (Qeq_bool r 0); f_equal; apply Fin_Qred; unred.
  - assert (E : f / 1 == f) by field. rewrite E, Qmult_1_r. reflexivity.
  - reflexivity.
Qed.

Lemma fold_distance_scaled (f r : Q) :
  ~ r == 0 ->
  fold_distance f r
  == Qabs (f / r - inject_Z (Qround_even (f / r))) * Qabs r.
Proof.
  intros N. unfold fold_distance. rewrite <- Qabs_Qmult.
  apply Qabs_wd. field. exact N.
Qed.

Lemma fold_distance_bounds (f r : Q) :
  ~ r == 0 -> 0 <= fold_distance f r <= Qabs r / 2.
Proof.
  intros N. rewrite (@fold_distance_scaled f r N).
  pose proof (Qround_even_nearest (f / r)) as B.
  pose proof (Qabs_nonneg (f / r - inject_Z (Qround_even (f / r)))) as P.
  pose proof (Qabs_nonneg r) as R.
  set (d := Qabs (f / r - inject_Z (Qround_even (f / r)))) in *.
  set (ar := Qabs r) in *.
  split; [nra|].
  assert (E : ar / 2 == (1 # 2) * ar) by field. rewrite E. nra.
Qed.

(** [fold_distance] through any integer within one half of [f / r]. *)
Lemma fold_distance_via (f r : Q) (z : Z) :
  ~ r == 0 -> Qabs (f / r - inject_Z z) <= 1 # 2 ->
  fold_distance f r == Qabs (f - inject_Z z * r).
Proof.
  intros N B. rewrite (@fold_distance_scaled f r N).
  rewrite (@nearest_distance_unique (f / r) (Qround_even (f / r)) z
             (Qround_even_nearest _) B).
  rewrite <- Qabs_Qmult. apply Qabs_wd. field. exact N.
Qed.

(** X1.  [calculate_alias_frequency f r] always returns a finite value
    between 0 and half of [|r|] (half of 1 for a zero reference): the
    frequency is folded into the Nyquist range of the reference. *)
Theorem alias_frequency_range (f r : Q) :
  exists a, calculate_alias_frequency (Fin f) (Fin r) = Ok (Fin a) /\
            0 <= a <= Qabs (effective_reference r) / 2 /\
            (~ r == 0 -> a <= Qabs r / 2) /\
            (r == 0 -> a <= 1 # 2).
Proof.
  rewrite alias_frequency_value. eexists; split; [reflexivity|].
  rewrite Qred_correct.
  pose proof (@fold_distance_bounds f _ (effective_reference_nonzero r)) as B.
  split; [exact B|]. unfold effective_reference in *.
  destruct (Qeq_bool r 0) eqn:E.
  - apply Qeq_bool_iff in E. split; [intros N; contradiction|].
    intros _. destruct B as [_ B]. exact B.
  - apply Qeq_bool_false in E. split; [intros _; apply B|].
    intros E0. contradiction.
Qed.

Lemma alias_frequency_range_witness :
  exists a, calculate_alias_frequency (Fin 1.9322734) (Fin 1.0028507)
            = Ok (Fin a) /\ a <= Qabs 1.0028507 / 2.
Proof.
  destruct (alias_frequency_range 1.9322734 1.0028507) as (a & E & _ & B & _).
  exists a. split; [exact E|]. apply B. vm_compute. discriminate.
Defined.

(** X2.  [calculate_alias_frequency] depends on [f] only up to a sign and
    to whole multiples of the reference: [f + k * r] and [- f] have the
    alias of [f]. *)
Theorem alias_frequency_periodic (f r : Q) (k : Z) :
  ~ r == 0 ->
  calculate_alias_frequency (Fin (f + inject_Z k * r)) (Fin r)
  = calculate_alias_frequency (Fin f) (Fin r) /\
  calculate_alias_frequency (Fin (- f)) (Fin r)
  = calculate_alias_frequency (Fin f) (Fin r).
Proof.
  intros N. rewrite !alias_frequency_value.
  assert (Er : effective_reference r = r).
  { unfold effective_reference. apply Qeq_bool_false in N. rewrite N. reflexivity. }
  rewrite Er. split; f_equal; apply Fin_Qred.
  - set (g := f + inject_Z k * r).
    assert (B : Qabs (f / r - inject_Z (Qround_even (g / r) - k)) <= 1 # 2).
    { unfold Z.sub. rewrite inject_Z_plus, inject_Z_opp.
      assert (E : f / r - (inject_Z (Qround_even (g / r)) + - inject_Z k)
                  == g / r - inject_Z (Qround_even (g / r)))
        by (unfold g; field; exact N).
      rewrite E. apply Qround_even_nearest. }
    rewrite (@fold_distance_via f r _ N B). unfold fold_distance.
    apply Qabs_wd. unfold Z.sub. rewrite inject_Z_plus, inject_Z_opp.
    unfold g. ring.
  - set (g := - f).
    assert (B : Qabs (f / r - inject_Z (- Qround_even (g / r))) <= 1 # 2).
    { rewrite inject_Z_opp.
      assert (E : f / r - - inject_Z (Qround_even (g / r))
                  == - (g / r - inject_Z (Qround_even (g / r))))
        by (unfold g; field; exact N).
      rewrite E, Qabs_opp. apply Qround_even_nearest. }
    rewrite (@fold_distance_via f r _ N B). unfold fold_distance.
    rewrite inject_Z_opp.
    assert (E : f - - inject_Z (Qround_even (g / r)) * r
                == - (g - inject_Z (Qround_even (g / r)) * r))
      by (unfold g; ring).
    rewrite E, Qabs_opp. reflexivity.
Qed.

Lemma alias_frequency_periodic_witness :
  calculate_alias_frequency (Fin (0.1 + inject_Z 3 * 0.25)) (Fin 0.25)
  = calculate_alias_frequency (Fin 0.1) (Fin 0.25) /\
  calculate_alias_frequency (Fin (- 0.1)) (Fin 0.25)
  = calculate_alias_frequency (Fin 0.1) (Fin 0.25).
Proof.
  apply (@alias_frequency_periodic 0.1 0.25 3). vm_compute. discriminate.
Defined.

Lemma Qabs_zero (x : Q) : Qabs x == 0 -> x == 0.
Proof.
  intros E. pose proof (Qle_Qabs x) as A. pose proof (Qle_Qabs (- x)) as B.
  rewrite Qabs_opp in B. lra.
Qed.

Lemma effective_reference_same (r : Q) : ~ r == 0 -> effective_reference r = r.
Proof.
  intros N. unfold effective_reference. apply Qeq_bool_false in N.
  rewrite N. reflexivity.
Qed.

(** A value within half of [|r|] of zero is its own fold. *)
Lemma fold_distance_small (a r : Q) :
  ~ r == 0 -> 0 <= a <= Qabs r / 2 -> fold_distance a r == a.
Proof.
  intros N [A0 A1].
  assert (R : 0 < Qabs r).
  { pose proof (Qabs_nonneg r) as P. apply Qle_lteq in P as [P|P]; [exact P|].
    exfalso. apply N, Qabs_zero. symmetry. exact P. }
  assert (B : Qabs (a / r - inject_Z 0) <= 1 # 2).
  { assert (E : a / r - inject_Z 0 == a / r) by (unfold inject_Z; ring).
    rewrite E.
    assert (M : Qabs (a / r) * Qabs r == a).
    { rewrite <- Qabs_Qmult.
      assert (E1 : a / r * r == a) by (field; exact N).
      rewrite E1. apply Qabs_pos, A0. }
    pose proof (Qabs_nonneg (a / r)) as P.
    set (y := Qabs (a / r)) in *. set (R' := Qabs r) in *.
    assert (E2 : R' / 2 == (1 # 2) * R') by field. rewrite E2 in A1.
    apply Qnot_lt_le. intros C. nra. }
  rewrite (@fold_distance_via a r 0%Z N B).
  assert (E : a - inject_Z 0 * r == a) by (unfold inject_Z; ring).
  rewrite E. apply Qabs_pos, A0.
Qed.

(** X3.  Folding is idempotent: the alias of an alias, against the same
    reference, is that alias. *)
Theorem alias_frequency_idempotent (f r : Q) :
  exists a, calculate_alias_frequency (Fin f) (Fin r) = Ok (Fin a) /\
            calculate_alias_frequency (Fin a) (Fin r) = Ok (Fin a).
Proof.
  rewrite alias_frequency_value. eexists; split; [reflexivity|].
  rewrite alias_frequency_value. f_equal. f_equal.
  apply Qred_complete.
  pose proof (effective_reference_nonzero r) as N.
  transitivity (Qred (fold_distance f (effective_reference r)));
    [|apply Qred_correct].
  apply fold_distance_small; [exact N|].
  rewrite Qred_correct. apply fold_distance_bounds, N.
Qed.

(** X4.  The alias against a non-zero reference is zero exactly for the
    whole multiples of the reference. *)
Theorem alias_frequency_zero_iff_multiple (f r : Q) :
  ~ r == 0 ->
  (calculate_alias_frequency (Fin f) (Fin r) = Ok (Fin 0)
   <-> exists k : Z, f == inject_Z k * r).
Proof.
  intros N. rewrite alias_frequency_value, (effective_reference_same N).
  split.
  - intros E.
    assert (E' : Qred (fold_distance f r) = 0) by congruence.
    assert (D : fold_distance f r == 0)
      by (rewrite <- (Qred_correct (fold_distance f r)), E'; reflexivity).
    exists (Qround_even (f / r)). apply Qabs_zero in D. lra.
  - intros [k E].
    assert (B : Qabs (f / r - inject_Z k) <= 1 # 2).
    { assert (E0 : f / r - inject_Z k == 0) by (rewrite E; field; exact N).
      rewrite E0. discriminate. }
    change (Fin 0) with (Fin (Qred 0)). f_equal. apply Fin_Qred.
    rewrite (@fold_distance_via f r k N B).
    assert (E0 : f - inject_Z k * r == 0) by lra. rewrite E0. reflexivity.
Qed.

Lemma alias_frequency_zero_iff_multiple_witness :
  calculate_alias_frequency (Fin 0.75) (Fin 0.25) = Ok (Fin 0)
  <-> exists k : Z, 0.75 == inject_Z k * 0.25.
Proof.
  apply (@alias_frequency_zero_iff_multiple 0.75 0.25). vm_compute. discriminate.
Defined.

Lemma subdaily_aliasing_value (f h : Q) :
  0 < h ->
  calculate_subdaily_aliasing (Fin f) (Fin h)
  = Ok (Fin (Qred (Qabs (f - (1 / (h / 24))
                             * inject_Z (Qfloor (f * (h / 24) + (1 # 2))))))).
Proof.
  intros Hh. on_exact. lits.
  rewrite (nonzero_test (q := h / 24)).
  2:{ intros E. assert (E' : h == h / 24 * 24) by field.
      rewrite E in E'. lra. }
  f_equal. apply Fin_Qred. unred. reflexivity.
Qed.

Lemma subdaily_aliasing_fold (f h : Q) :
  0 < h ->
  ~ 24 / h == 0 /\
  calculate_subdaily_aliasing (Fin f) (Fin h)
  = Ok (Fin (Qred (fold_distance f (24 / h)))).
Proof.
  intros Hh.
  assert (Nh : ~ h == 0) by lra.
  assert (N : ~ 24 / h == 0).
  { intros E. assert (E1 : 24 / h * h == 24) by (field; exact Nh).
    rewrite E in E1. lra. }
  split; [exact N|].
  rewrite (subdaily_aliasing_value f Hh). f_equal. apply Fin_Qred.
  set (x := f * (h / 24) + (1 # 2)).
  assert (B : Qabs (f / (24 / h) - inject_Z (Qfloor x)) <= 1 # 2).
  { assert (Ex : x == f / (24 / h) + (1 # 2))
      by (unfold x; field; exact Nh).
    rewrite Ex, <- round_floor_same_distance. apply Qround_even_nearest. }
  rewrite (@fold_distance_via f (24 / h) _ N B).
  apply Qabs_wd. field. exact Nh.
Qed.



(* ================================================================== *)
(** * Edge cases of the conversions and of the periods *)

Lemma cpd_to_days_xreal (x : xreal) :
  cpd_to_days x
  = Ok match x with
       | Fin f => if Qeq_bool f 0 then PInf else Fin (Qred (1 / f))
       | PInf | NInf => Fin 0
       | NaN => NaN
       end.
Proof.
  destruct x as [f| | |]; try reflexivity.
  on_exact. lits. destruct (Qeq_bool f 0); reflexivity.
Qed.

Lemma cpd_to_days_float (x : float) :
  cpd_to_days x
  = Ok (if PrimFloat.eqb x 0 then infinity else PrimFloat.div 1 x).
Proof.
  unfold cpd_to_days. cbn [feqb fdiv lit inf binary64].
  change (lit64 0) with 0%float. change (lit64 1) with 1%float.
  unfold div64. change PrimFloat.zero with 0%float.
  destruct (PrimFloat.eqb x 0); reflexivity.
Qed.

(** X6.  [cpd_to_days] and [days_to_cpd] never raise: a zero of either sign
    gives [+inf], any other float [x] gives [1.0 / x] (so an infinity gives
    a zero and NaN gives NaN); the same holds in exact arithmetic. *)
Theorem conversions_never_raise :
  (forall x : float,
     cpd_to_days x
     = Ok (if PrimFloat.eqb x 0 then infinity else PrimFloat.div 1 x) /\
     days_to_cpd x
     = Ok (if PrimFloat.eqb x 0 then infinity else PrimFloat.div 1 x)) /\
  cpd_to_days (-0)%float = Ok infinity /\
  cpd_to_days infinity = Ok 0%float /\
  (forall x : xreal, exists y, cpd_to_days x = Ok y /\ days_to_cpd x = Ok y).
Proof.
  split; [|split; [|split]].
  - intros x. split; apply cpd_to_days_float.
  - vm_compute. reflexivity.
  - vm_compute. reflexivity.
  - intros x. eexists. split; apply cpd_to_days_xreal.
Qed.


(** X8.  A zero sampling interval makes [calculate_subdaily_aliasing] raise
    [ZeroDivisionError] (at [1 / T]), whatever the frequency. *)
Theorem zero_sampling_interval_raises :
  (forall (f : xreal) (h : Q),
     h == 0 ->
     calculate_subdaily_aliasing f (Fin h) = Raise ZeroDivisionError) /\
  (forall f : float,
     calculate_subdaily_aliasing f 0%float = Raise ZeroDivisionError /\
     calculate_subdaily_aliasing f (-0)%float = Raise ZeroDivisionError).
Proof.
  split.
  - intros f h E. on_exact. lits.
    assert (T : Qeq_bool (Qred (h / 24)) 0 = true).
    { apply Qeq_bool_iff. rewrite Qred_correct, E. reflexivity. }
    rewrite T. reflexivity.
  - intros f. split; reflexivity.
Qed.

Lemma zero_sampling_interval_raises_witness :
  calculate_subdaily_aliasing (Fin 2.0057014) (Fin 0)
  = Raise ZeroDivisionError.
Proof.
  apply (proj1 zero_sampling_interval_raises (Fin 2.0057014) 0). reflexivity.
Defined.

(** X9.  [calculate_orbital_period] with a zero period: for [n = m = 0] it
    returns [+inf] without dividing; otherwise a zero [T_E] raises
    [ZeroDivisionError], and so does a zero [T_S], even when its
    coefficient [m] is 0. *)
Theorem zero_period_raises :
  (forall (F : Type) (A : PyFloat F) (T_S T_E : F),
     calculate_orbital_period 0 0 T_S T_E = Ok inf) /\
  (forall (n m : Z) (T_S : xreal) (T_E : Q),
     ~ (n = 0 /\ m = 0)%Z -> T_E == 0 ->
     calculate_orbital_period n m T_S (Fin T_E) = Raise ZeroDivisionError) /\
  (forall (n m : Z) (T_S T_E : Q),
     ~ (n = 0 /\ m = 0)%Z -> ~ T_E == 0 -> T_S == 0 ->
     calculate_orbital_period n m (Fin T_S) (Fin T_E)
     = Raise ZeroDivisionError) /\
  (forall (n m : Z) (T_S n' : float),
     ~ (n = 0 /\ m = 0)%Z -> of_int n = Ok n' ->
     calculate_orbital_period n m T_S 0%float = Raise ZeroDivisionError).
Proof.
  split; [|split; [|split]].
  - intros F A T_S T_E. reflexivity.
  - intros n m T_S T_E Hnm E. unfold calculate_orbital_period.
    destruct ((n =? 0) && (m =? 0))%Z eqn:Z0.
    { apply andb_true_iff in Z0 as [A B]. exfalso. apply Hnm. split; lia. }
    on_exact. apply Qeq_bool_iff in E. rewrite E. reflexivity.
  - intros n m T_S T_E Hnm NE E. unfold calculate_orbital_period.
    destruct ((n =? 0) && (m =? 0))%Z eqn:Z0.
    { apply andb_true_iff in Z0 as [A B]. exfalso. apply Hnm. split; lia. }
    on_exact. apply Qeq_bool_false in NE. apply Qeq_bool_iff in E.
    rewrite NE, E. reflexivity.
  - intros n m T_S n' Hnm E. unfold calculate_orbital_period.
    destruct ((n =? 0) && (m =? 0))%Z eqn:Z0.
    { apply andb_true_iff in Z0 as [A B]. exfalso. apply Hnm. split; lia. }
    rewrite E. reflexivity.
Qed.

Lemma zero_period_raises_witness :
  calculate_orbital_period 1 0 (Fin 0) (Fin 23.9345) = Raise ZeroDivisionError /\
  calculate_orbital_period 1 1 (Fin 11.967) (Fin 0) = Raise ZeroDivisionError /\
  calculate_orbital_period 1 1 11.5%float 0%float = Raise ZeroDivisionError.
Proof.
  destruct zero_period_raises as (_ & A & B & C). split; [|split].
  - apply B; [intros [E _]; discriminate E | vm_compute; discriminate | reflexivity].
  - apply A; [intros [E _]; discriminate E | reflexivity].
  - apply (C 1 1 11.5%float 1%float)%Z;
      [intros [E _]; discriminate E | vm_compute; reflexivity].
Defined.

(* ================================================================== *)
(** * The orbital period and the signals table *)

Lemma Zeqb_opp_0 (n : Z) : (- n =? 0)%Z = (n =? 0)%Z.
Proof. destruct n; reflexivity. Qed.

(** The two outcomes of [calculate_orbital_period] on positive periods. *)
Lemma orbital_period_result (n m : Z) (T_S T_E : Q) :
  0 < T_S -> 0 < T_E ->
  let den := inject_Z n / T_E + inject_Z m / T_S in
  calculate_orbital_period n m (Fin T_S) (Fin T_E) = Ok PInf \/
  (~ den == 0 /\
   exists p, calculate_orbital_period n m (Fin T_S) (Fin T_E) = Ok (Fin p) /\
             p = Qred (Qabs (1 / den)) /\ 0 < p).
Proof.
  intros HS HE den. rewrite (orbital_period_Q n m HS HE). cbv zeta.
  set (den' := Qred (Qred (inject_Z n / T_E) + Qred (inject_Z m / T_S))).
  assert (Ed : den' == den) by (subst den' den; unred; reflexivity).
  destruct ((n =? 0) && (m =? 0))%Z; [left; reflexivity|].
  destruct (Qltb _ _) eqn:T; [left; reflexivity|].
  destruct (Qeq_bool den' 0) eqn:D0.
  - exfalso. apply Qeq_bool_iff in D0. apply Qltb_ge in T.
    rewrite Qred_correct, D0 in T. revert T. apply Qlt_not_le. reflexivity.
  - right. apply Qeq_bool_false in D0. rewrite Ed in D0.
    split; [exact D0|]. eexists; split; [reflexivity|]. split.
    + apply Qred_complete. unred. rewrite Ed. reflexivity.
    + rewrite !Qred_correct, Ed.
      assert (Hp : Qabs (1 / den) * Qabs den == 1).
      { rewrite <- Qabs_Qmult.
        assert (E1 : 1 / den * den == 1) by (field; exact D0).
        rewrite E1. reflexivity. }
      pose proof (Qabs_nonneg (1 / den)) as N1.
      pose proof (Qabs_nonneg den) as N2.
      apply Qnot_le_lt. intros C. nra.
Qed.



Lemma fold_distance_unit (f : Q) :
  fold_distance f (24 / 24) == Qabs (f - inject_Z (Qround_even f)).
Proof.
  unfold fold_distance.
  assert (E1 : 24 / 24 == 1) by reflexivity.
  assert (E2 : f / (24 / 24) == f) by field.
  rewrite E2, E1, Qmult_1_r. reflexivity.
Qed.



(* ================================================================== *)
(** * The harmonic generator *)

Lemma range_from_In (lo : Z) (n : nat) (x : Z) :
  In x (range_from lo n) <-> (lo <= x < lo + Z.of_nat n)%Z.
Proof.
  revert lo. induction n as [|n IH]; intros lo; simpl range_from.
  - simpl. lia.
  - simpl In. rewrite IH. lia.
Qed.

Lemma range_from_NoDup (lo : Z) (n : nat) : NoDup (range_from lo n).
Proof.
  revert lo. induction n as [|n IH]; intros lo; simpl; constructor.
  - rewrite range_from_In. lia.
  - apply IH.
Qed.

Lemma range_from_length (lo : Z) (n : nat) : List.length (range_from lo n) = n.
Proof.
  revert lo. induction n as [|n IH]; intros lo; simpl; [|rewrite IH]; reflexivity.
Qed.

Lemma range_In (lo hi x : Z) : In x (range lo hi) <-> (lo <= x < hi)%Z.
Proof. unfold range. rewrite range_from_In. lia. Qed.

Lemma Z_eqb_spec' (a b : Z) : (a =? b)%Z = true <-> a = b.
Proof. apply Z.eqb_eq. Qed.

Section HarmonicsFacts.
Context {F : Type} `{PyFloat F}.

(** The loop of the comprehension, from a table [acc] that holds none of
    the indices still to come. *)
Lemma harmonics_loop (base : F) (l : list Z) :
  forall (acc d : dict Z F),
    NoDup l -> (forall i, In i l -> ~ In i (dict_keys acc)) ->
    foldM (fun d i => i' <- of_int i ;;
                      Ok (dict_set Z.eqb i (fmul i' base) d))%py l acc = Ok d ->
    dict_keys d = dict_keys acc ++ l /\
    forall i v, In (i, v) d ->
                In (i, v) acc \/
                (In i l /\ exists i', of_int i = Ok i' /\ v = fmul i' base).
Proof.
  induction l as [|i l IH]; intros acc d ND Fresh E; cbn [foldM] in E.
  - injection E as <-. rewrite app_nil_r. auto.
  - apply bind_Ok in E as (acc' & E1 & E2).
    apply bind_Ok in E1 as (i' & Ei & E1). injection E1 as <-.
    apply NoDup_cons_iff in ND as [Ni ND].
    rewrite (dict_set_fresh Z.eqb Z_eqb_spec') in E2
      by (apply Fresh; left; reflexivity).
    apply IH in E2 as [K V]; [| exact ND |].
    + split.
      * rewrite K. unfold dict_keys. rewrite map_app, <- app_assoc. reflexivity.
      * intros j v I. apply V in I as [I|(I & R)].
        -- apply in_app_or in I as [I|[I|[]]]; [left; exact I|].
           injection I as <- <-. right. split; [left; reflexivity|eauto].
        -- right. split; [right; exact I|exact R].
    + intros j Ij Kj. unfold dict_keys in Kj. rewrite map_app in Kj.
      apply in_app_or in Kj as [Kj|[Kj|[]]].
      * apply (Fresh j); [right; exact Ij|exact Kj].
      * simpl in Kj. subst j. contradiction.
Qed.
End HarmonicsFacts.

(** X12.  Whenever [calculate_draconitic_harmonics] (or
    [calculate_annual_harmonics]) returns, on any arithmetic, its table has
    exactly the keys 1, 2, ..., [max_harmonic] in this order, each holding
    [i * base_freq]; it is empty for [max_harmonic <= 0]. *)
Theorem harmonics_table {F : Type} `{PyFloat F} (base : F) (max_harmonic : Z)
        (d : dict Z F) :
  calculate_draconitic_harmonics base max_harmonic = Ok d ->
  calculate_annual_harmonics base max_harmonic = Ok d /\
  dict_keys d = range 1 (max_harmonic + 1) /\
  List.length d = Z.to_nat max_harmonic /\
  (forall i v, In (i, v) d ->
               (1 <= i <= max_harmonic)%Z /\
               exists i', of_int i = Ok i' /\ v = fmul i' base) /\
  ((max_harmonic <= 0)%Z -> d = []).
Proof.
  intros E. split; [exact E|].
  unfold calculate_draconitic_harmonics, harmonics in E.
  apply harmonics_loop in E as [K V];
    [|apply range_from_NoDup|intros i _ []].
  simpl in K. split; [exact K|]. split; [|split].
  - rewrite <- (length_map fst). fold (dict_keys d). rewrite K.
    unfold range. rewrite range_from_length. f_equal. lia.
  - intros i v I. apply V in I as [[]|(I & R)].
    apply range_In in I. split; [lia|exact R].
  - intros Hm. assert (K0 : dict_keys d = []).
    { rewrite K. unfold range.
      replace (Z.to_nat (max_harmonic + 1 - 1)) with O by lia. reflexivity. }
    destruct d; [reflexivity|discriminate K0].
Qed.

Lemma harmonics_table_witness :
  exists d,
    calculate_draconitic_harmonics (F := float) (lit 0.0028453) 15 = Ok d /\
    dict_keys d = range 1 (15 + 1) /\ List.length d = Z.to_nat 15.
Proof.
  eexists. split; [vm_compute; reflexivity|].
  match goal with
  | |- dict_keys ?d = _ /\ _ =>
      destruct (@harmonics_table float _ (lit 0.0028453) 15 d)
        as (_ & K & L & _);
      [vm_compute; reflexivity | split; [exact K|exact L]]
  end.
Defined.

(** X13.  In exact arithmetic the harmonic generator always returns: entry
    [i] is [i * base_freq] for each [i] from 1 to [max_harmonic], no other
    key is present, and for a positive base frequency the entries increase
    strictly with [i]. *)
Theorem harmonics_exact (base : Q) (max_harmonic : Z) :
  exists d,
    calculate_draconitic_harmonics (Fin base) max_harmonic = Ok d /\
    d = map (fun i => (i, Fin (Qred (inject_Z i * base))))
            (range 1 (max_harmonic + 1)) /\
    (forall i, (1 <= i <= max_harmonic)%Z ->
               dict_get Z.eqb i d = Some (Fin (Qred (inject_Z i * base)))) /\
    (forall i, ~ (1 <= i <= max_harmonic)%Z -> dict_get Z.eqb i d = None) /\
    (0 < base ->
     forall i j, (1 <= i < j)%Z -> (j <= max_harmonic)%Z ->
                 inject_Z i * base < inject_Z j * base).
Proof.
  set (g := fun i : Z => (i, Fin (Qred (inject_Z i * base)))).
  assert (L : forall l acc,
             NoDup l -> (forall i, In i l -> ~ In i (dict_keys acc)) ->
             foldM (fun d i => i' <- of_int i ;;
                               Ok (dict_set Z.eqb i (fmul i' (Fin base)) d))%py
                   l acc = Ok (acc ++ map g l)).
  { induction l as [|i l IH]; intros acc ND Fresh; cbn [foldM map].
    - rewrite app_nil_r. reflexivity.
    - apply NoDup_cons_iff in ND as [Ni ND].
      change (of_int i) with (Ok (Fin (inject_Z i))). cbn [bind].
      rewrite (dict_set_fresh Z.eqb Z_eqb_spec')
        by (apply Fresh; left; reflexivity).
      change (fmul (Fin (inject_Z i)) (Fin base))
        with (Fin (Qred (inject_Z i * base))).
      rewrite IH; [rewrite <- app_assoc; reflexivity|exact ND|].
      intros j Ij Kj. unfold dict_keys in Kj. rewrite map_app in Kj.
      apply in_app_or in Kj as [Kj|[Kj|[]]].
      + apply (Fresh j); [right; exact Ij|exact Kj].
      + simpl in Kj. subst j. contradiction. }
  exists (map g (range 1 (max_harmonic + 1))).
  split; [|split; [reflexivity|split; [|split]]].
  - unfold calculate_draconitic_harmonics, harmonics.
    rewrite L; [reflexivity|apply range_from_NoDup|intros i _ []].
  - intros i Hi. unfold range.
    remember (Z.to_nat (max_harmonic + 1 - 1)) as n eqn:En.
    assert (Hn : (1 <= i < 1 + Z.of_nat n)%Z) by lia. clear En Hi.
    revert Hn. generalize 1%Z as lo. induction n as [|n IH]; intros lo Hn.
    + lia.
    + simpl. destruct (Z.eqb_spec i lo) as [->|Ne]; [reflexivity|].
      apply IH. lia.
  - intros i Hi. apply (dict_get_not_key Z.eqb Z_eqb_spec').
    unfold dict_keys. rewrite map_map. simpl. rewrite map_id.
    rewrite range_In. lia.
  - intros Hb i j Hij Hj.
    assert (inject_Z i < inject_Z j) by (rewrite <- Zlt_Qlt; lia). nra.
Qed.

Lemma harmonics_exact_witness :
  inject_Z 2 * 0.0028453 < inject_Z 3 * 0.0028453.
Proof.
  destruct (harmonics_exact 0.0028453 15) as (d & _ & _ & _ & _ & M).
  apply M; [reflexivity|lia|lia].
Defined.

(* ================================================================== *)
(** * The summary and the range search *)

Section TraversalFacts.
Context {F : Type} `{PyFloat F}.

(** Induction on a catalogue value, through the entries of a [dict]. *)
Lemma pyval_induction (P : pyval F -> Prop) :
  (forall x, P (VNum x)) ->
  (forall d, Forall (fun kv => P (snd kv)) d -> P (VDict d)) ->
  forall v, P v.
Proof.
  intros HN HD. fix IH 1. intros [x|d].
  - apply HN.
  - apply HD. induction d as [|[k v] d IHd]; constructor.
    + apply IH.
    + apply IHd.
Qed.

(** The stored values do not depend on the path they are listed with. *)
Lemma numbers_values (v : pyval F) :
  forall p q, map snd (numbers p v) = map snd (numbers q v).
Proof.
  induction v as [x|d IH] using pyval_induction; intros p q; [reflexivity|].
  cbn [numbers]. induction IH as [|[k v] d Hv _ IHd]; [reflexivity|].
  cbn [snd] in Hv. rewrite !map_app. f_equal; [apply Hv | apply IHd].
Qed.

Lemma collect_value_spec (v : pyval F) :
  forall acc p,
    collect_value acc v = acc ++ filter (fun x => fltb (lit 0) x) (map snd (numbers p v)).
Proof.
  induction v as [x|d IH] using pyval_induction; intros acc p.
  - cbn [collect_value numbers map snd filter].
    destruct (fltb (lit 0) x); [reflexivity|rewrite app_nil_r; reflexivity].
  - cbn [collect_value numbers]. revert acc.
    induction IH as [|[k v] d Hv _ IHd]; intros acc.
    + rewrite app_nil_r. reflexivity.
    + cbn [snd] in Hv.
      rewrite IHd, (Hv acc (k :: p)), map_app, filter_app, app_assoc.
      reflexivity.
Qed.

Lemma count_value_spec (v : pyval F) :
  forall p,
    count_value v
    = Z.of_nat (List.length (filter (fun x => fltb (lit 0) x) (map snd (numbers p v)))).
Proof.
  induction v as [x|d IH] using pyval_induction; intros p.
  - cbn [count_value numbers map snd filter].
    destruct (fltb (lit 0) x); reflexivity.
  - cbn [count_value numbers].
    enough (G : forall c,
               (fix loop (count : Z) (d0 : list (key * pyval F)) : Z :=
                  match d0 with
                  | [] => count
                  | (_, v') :: d' => loop (count + count_value v')%Z d'
                  end) c d
               = (c + Z.of_nat
                        (List.length
                           (filter (fun x => fltb (lit 0) x)
                              (map snd
                                 ((fix go (d0 : list (key * pyval F))
                                     : list (list key * F) :=
                                     match d0 with
                                     | [] => []
                                     | (k, v') :: d' =>
                                         numbers (k :: p) v' ++ go d'
                                     end) d)))))%Z)
      by (rewrite G; reflexivity).
    induction IH as [|[k v] d Hv _ IHd]; intros c.
    + simpl. lia.
    + cbn [snd] in Hv.
      rewrite IHd, (Hv (k :: p)), map_app, filter_app, length_app. lia.
Qed.

Lemma py_min_member (first : F) (rest : list F) :
  In (py_min first rest) (first :: rest).
Proof.
  unfold py_min. revert first.
  induction rest as [|x rest IH]; intros first; [left; reflexivity|].
  cbn [fold_left]. destruct (fltb x first).
  - right. apply IH.
  - destruct (IH first) as [E|I]; [left; exact E|right; right; exact I].
Qed.

Lemma py_max_member (first : F) (rest : list F) :
  In (py_max first rest) (first :: rest).
Proof.
  unfold py_max. revert first.
  induction rest as [|x rest IH]; intros first; [left; reflexivity|].
  cbn [fold_left]. destruct (fltb first x).
  - right. apply IH.
  - destruct (IH first) as [E|I]; [left; exact E|right; right; exact I].
Qed.

Lemma collect_frequencies_spec (cat : cat_t) :
  collect_frequencies cat = positive_numbers cat.
Proof.
  unfold collect_frequencies, positive_numbers.
  rewrite (collect_value_spec (VDict cat) [] []). reflexivity.
Qed.

Lemma find_in_value_spec (min_freq max_freq : F) (v : pyval F) :
  forall prefix p,
    find_in_value min_freq max_freq (dotted prefix p) v
    = map (fun px => (dotted prefix (fst px), snd px))
          (filter (fun px => in_range min_freq max_freq (snd px))
                  (numbers p v)).
Proof.
  induction v as [x|d IH] using pyval_induction; intros prefix p.
  - cbn [find_in_value numbers filter snd]. unfold in_range.
    destruct (fleb min_freq x && fleb x max_freq); reflexivity.
  - cbn [find_in_value numbers].
    enough (G : forall acc,
               (fix loop (results : list (key * F))
                         (d0 : list (key * pyval F)) : list (key * F) :=
                  match d0 with
                  | [] => results
                  | (k, v') :: d' =>
                      loop (results
                            ++ find_in_value min_freq max_freq
                                 (current_path (dotted prefix p) k) v') d'
                  end) acc d
               = acc ++ map (fun px => (dotted prefix (fst px), snd px))
                   (filter (fun px => in_range min_freq max_freq (snd px))
                      ((fix go (d0 : list (key * pyval F))
                          : list (list key * F) :=
                          match d0 with
                          | [] => []
                          | (k, v') :: d' => numbers (k :: p) v' ++ go d'
                          end) d)))
      by (rewrite G; reflexivity).
    induction IH as [|[k v] d Hv _ IHd]; intros acc.
    + rewrite app_nil_r. reflexivity.
    + cbn [snd] in Hv. rewrite IHd.
      change (current_path (dotted prefix p) k) with (dotted prefix (k :: p)).
      rewrite (Hv prefix (k :: p)), filter_app, map_app, app_assoc.
      reflexivity.
Qed.
End TraversalFacts.

(** X14.  When the summary of a catalogue is built, [total_frequencies] is
    the number of positive numbers stored anywhere in the catalogue (the
    period fields of the signal records included), which are exactly the
    values collected for the range; [min_cpd] and [max_cpd] are two of
    them, the two periods are their conversions, and all four are 0 when
    there is none.  (Any arithmetic.) *)
Theorem summary_counts_positive_numbers {F : Type} `{PyFloat F}
        (cat : cat_t) (s : summary_t F) :
  summary_of cat = Ok s ->
  let r := frequency_range s in
  collect_frequencies cat = positive_numbers cat /\
  total_frequencies s = Z.of_nat (List.length (positive_numbers cat)) /\
  (positive_numbers cat = [] ->
   min_cpd r = lit 0 /\ max_cpd r = lit 0 /\
   min_period_days r = lit 0 /\ max_period_days r = lit 0) /\
  (positive_numbers cat <> [] ->
   In (min_cpd r) (positive_numbers cat) /\
   In (max_cpd r) (positive_numbers cat) /\
   cpd_to_days (max_cpd r) = Ok (min_period_days r) /\
   cpd_to_days (min_cpd r) = Ok (max_period_days r)).
Proof.
  intros E r. split; [apply collect_frequencies_spec|].
  unfold summary_of in E. rewrite collect_frequencies_spec in E.
  apply bind_Ok in E as (rg & Erg & E).
  repeat (apply bind_Ok in E as (? & _ & E)).
  injection E as <-. subst r. cbn [total_frequencies frequency_range].
  split.
  { unfold count_frequencies, positive_numbers.
    rewrite (count_value_spec (VDict cat) []). reflexivity. }
  unfold frequency_range_of in Erg.
  destruct (positive_numbers cat) as [|first rest].
  - injection Erg as <-. split; [intros _; repeat split|].
    intros N. contradiction.
  - split; [discriminate|]. intros _.
    apply bind_Ok in Erg as (pmin & E1 & Erg).
    apply bind_Ok in Erg as (pmax & E2 & Erg).
    injection Erg as <-.
    cbn [min_cpd max_cpd min_period_days max_period_days].
    split; [apply py_min_member|]. split; [apply py_max_member|].
    split; [exact E1|exact E2].
Qed.

Lemma summary_counts_positive_numbers_witness :
  exists s,
    summary_of catalogue64 = Ok s /\
    total_frequencies s = Z.of_nat (List.length (positive_numbers catalogue64)) /\
    In (max_cpd (frequency_range s)) (positive_numbers catalogue64).
Proof.
  eexists. split; [vm_compute; reflexivity|].
  match goal with
  | |- total_frequencies ?s = _ /\ _ =>
      destruct (@summary_counts_positive_numbers float _ catalogue64 s)
        as (_ & T & _ & M); [vm_compute; reflexivity|]
  end.
  split; [exact T|]. apply M. vm_compute. discriminate.
Defined.

Lemma find_frequencies_in_range_facts {F : Type} `{PyFloat F}
      (freq_dict : cat_t) (min_freq max_freq : F) (prefix : key) :
  find_frequencies_in_range freq_dict min_freq max_freq prefix
  = map (fun px => (dotted prefix (fst px), snd px))
        (filter (fun px => in_range min_freq max_freq (snd px))
                (numbers [] (VDict freq_dict))).
Proof.
  apply (find_in_value_spec min_freq max_freq (VDict freq_dict) prefix []).
Qed.

(** X15.  [find_frequencies_in_range] returns exactly the stored numbers
    [x] with [min_freq <= x <= max_freq], in the order of the traversal,
    each named by its keys joined with dots below the prefix; so every
    value it returns lies in the range.  (Any arithmetic.) *)
Theorem find_frequencies_in_range_spec {F : Type} `{PyFloat F}
        (freq_dict : cat_t) (min_freq max_freq : F) (prefix : key) :
  find_frequencies_in_range freq_dict min_freq max_freq prefix
  = map (fun px => (dotted prefix (fst px), snd px))
        (filter (fun px => in_range min_freq max_freq (snd px))
                (numbers [] (VDict freq_dict))) /\
  forall path x,
    In (path, x)
       (find_frequencies_in_range freq_dict min_freq max_freq prefix) ->
    fleb min_freq x = true /\ fleb x max_freq = true /\
    exists keys, In (keys, x) (numbers [] (VDict freq_dict)) /\
                 path = dotted prefix keys.
Proof.
  pose proof (find_frequencies_in_range_facts freq_dict min_freq max_freq
                                              prefix) as E.
  split; [exact E|].
  intros path x I. rewrite E in I.
  apply in_map_iff in I as ([keys y] & Ep & I). cbn [fst snd] in Ep.
  injection Ep as <- <-.
  apply filter_In in I as [I R]. unfold in_range in R. cbn [snd] in R.
  apply andb_true_iff in R as [R1 R2].
  split; [exact R1|]. split; [exact R2|]. exists keys. auto.
Qed.

Lemma find_frequencies_in_range_spec_witness :
  fleb (Fin 1.8) (Fin 2.0056) = true /\ fleb (Fin 2.0056) (Fin 2.2) = true /\
  exists keys,
    In (keys, Fin 2.0056)
       (numbers []
          (VDict [(KStr "gps",
                   VDict [(KStr "orbital_frequency", VNum (Fin 2.0056))]);
                  (KStr "annual", VDict [(KInt 1, VNum (Fin 0.0027378))])])) /\
    KStr "gps.orbital_frequency" = dotted (KStr EmptyString) keys.
Proof.
  apply (proj2 (find_frequencies_in_range_spec
                  [(KStr "gps",
                    VDict [(KStr "orbital_frequency", VNum (Fin 2.0056))]);
                   (KStr "annual", VDict [(KInt 1, VNum (Fin 0.0027378))])]
                  (Fin 1.8) (Fin 2.2) (KStr EmptyString))
               (KStr "gps.orbital_frequency") (Fin 2.0056)).
  vm_compute. left. reflexivity.
Defined.

(* ------------------------------------------------------------------ *)
(** ** The range of the summary, on exact arithmetic *)

(** Positive values are finite or [+inf], and are totally ordered. *)
Lemma xltb_total (x y : xreal) :
  xltb (Fin 0) x = true -> xltb (Fin 0) y = true ->
  xltb x y = false -> xleb y x = true.
Proof.
  destruct x as [a| | |], y as [b| | |]; simpl; try discriminate; auto.
  intros _ _ L. apply Qltb_ge in L. apply Qle_bool_iff, L.
Qed.

Lemma xltb_xleb (x y : xreal) : xltb x y = true -> xleb x y = true.
Proof.
  destruct x as [a| | |], y as [b| | |]; simpl; try discriminate; auto.
  intros L. apply Qltb_lt in L. apply Qle_bool_iff. lra.
Qed.

Lemma xleb_refl (x : xreal) : xltb (Fin 0) x = true -> xleb x x = true.
Proof.
  destruct x as [a| | |]; simpl; try discriminate; auto.
  intros _. apply Qle_bool_iff. lra.
Qed.

Lemma xleb_trans (x y z : xreal) :
  xleb x y = true -> xleb y z = true -> xleb x z = true.
Proof.
  destruct x as [a| | |], y as [b| | |], z as [c| | |]; simpl;
    try discriminate; auto.
  rewrite !Qle_bool_iff. intros; lra.
Qed.

Lemma py_min_least (first : xreal) (rest : list xreal) :
  Forall (fun x => xltb (Fin 0) x = true) (first :: rest) ->
  Forall (fun x => xleb (py_min first rest) x = true) (first :: rest).
Proof.
  unfold py_min. revert first.
  induction rest as [|x rest IH]; intros first P.
  - constructor; [|constructor]. apply xleb_refl.
    apply Forall_inv in P. exact P.
  - cbn [fold_left].
    pose proof (Forall_inv P) as Pf.
    pose proof (Forall_inv (Forall_inv_tail P)) as Px.
    pose proof (Forall_inv_tail (Forall_inv_tail P)) as Pr.
    change (fltb x first) with (xltb x first).
    destruct (xltb x first) eqn:L.
    + specialize (IH x (Forall_cons _ Px Pr)).
      pose proof (Forall_inv IH) as Ix.
      constructor; [|exact IH].
      eapply xleb_trans; [exact Ix|apply xltb_xleb, L].
    + specialize (IH first (Forall_cons _ Pf Pr)).
      pose proof (Forall_inv IH) as If.
      constructor; [exact If|]. constructor; [|apply (Forall_inv_tail IH)].
      eapply xleb_trans; [exact If|apply xltb_total; assumption].
Qed.

Lemma py_max_greatest (first : xreal) (rest : list xreal) :
  Forall (fun x => xltb (Fin 0) x = true) (first :: rest) ->
  Forall (fun x => xleb x (py_max first rest) = true) (first :: rest).
Proof.
  unfold py_max. revert first.
  induction rest as [|x rest IH]; intros first P.
  - constructor; [|constructor]. apply xleb_refl.
    apply Forall_inv in P. exact P.
  - cbn [fold_left].
    pose proof (Forall_inv P) as Pf.
    pose proof (Forall_inv (Forall_inv_tail P)) as Px.
    pose proof (Forall_inv_tail (Forall_inv_tail P)) as Pr.
    change (fltb first x) with (xltb first x).
    destruct (xltb first x) eqn:L.
    + specialize (IH x (Forall_cons _ Px Pr)).
      pose proof (Forall_inv IH) as Ix.
      constructor; [|exact IH].
      eapply xleb_trans; [apply xltb_xleb, L|exact Ix].
    + specialize (IH first (Forall_cons _ Pf Pr)).
      pose proof (Forall_inv IH) as If.
      constructor; [exact If|]. constructor; [|apply (Forall_inv_tail IH)].
      apply (@xleb_trans x first); [apply xltb_total; assumption|exact If].
Qed.

Lemma positive_numbers_positive (cat : cat_t (F := xreal)) :
  Forall (fun x => xltb (Fin 0) x = true) (positive_numbers cat).
Proof.
  apply Forall_forall. intros x I. unfold positive_numbers in I.
  apply filter_In in I as [_ P]. exact P.
Qed.

Lemma cpd_to_days_positive (x : xreal) :
  xltb (Fin 0) x = true ->
  (exists q, 0 < q /\ x = Fin q /\ cpd_to_days x = Ok (Fin (Qred (1 / q)))) \/
  (x = PInf /\ cpd_to_days x = Ok (Fin 0)).
Proof.
  destruct x as [q| | |]; simpl; try discriminate.
  - intros L. apply Qltb_lt in L. left. exists q. split; [exact L|].
    split; [reflexivity|]. apply cpd_to_days_Q. lra.
  - intros _. right. split; reflexivity.
Qed.



(** X17.  [get_frequency_summary()] returns, with the same counts on
    binary64 and on exact arithmetic: 422 positive numbers out of the 425
    stored ones, and the categories 15 + 21, 15 + 30 + 21, 15 + 30 + 21, 8,
    12 and 32.  Its [max_cpd] is not a frequency: it is the field
    [orbital_period_hours] of the GPS signal [n-2_m1], the largest positive
    number stored, and [min_period_days] is its inverse. *)
Theorem frequency_summary_evaluated :
  let path := [KStr "gps"; KStr "orbital_signals"; KStr "n-2_m1";
               KStr "orbital_period_hours"]%string in
  let cats :=
    [("gps", Counts [("draconitic_harmonics", 15); ("orbital_signals", 21)]);
     ("glonass", Counts [("draconitic_harmonics", 15); ("orbital_peaks", 30);
                         ("orbital_signals", 21)]);
     ("galileo", Counts [("draconitic_harmonics", 15); ("orbital_peaks", 30);
                         ("orbital_signals", 21)]);
     ("tides", Count 8); ("annual", Count 12);
     ("aliases", Count 32)]%string%Z in
  (exists s,
     get_frequency_summary (F := float) = Ok s /\
     total_frequencies s = 422%Z /\
     List.length (numbers [] (VDict catalogue64)) = 425%nat /\
     categories s = cats /\
     lookup path (VDict catalogue64)
     = Some (VNum (max_cpd (frequency_range s))) /\
     max_cpd (frequency_range s) = 0x1.17b60a560a6bfp+19%float /\
     cpd_to_days (max_cpd (frequency_range s))
     = Ok (min_period_days (frequency_range s))) /\
  (exists s,
     get_frequency_summary (F := xreal) = Ok s /\
     total_frequencies s = 422%Z /\
     List.length (numbers [] (VDict catalogueQ)) = 425%nat /\
     categories s = cats /\
     lookup path (VDict catalogueQ)
     = Some (VNum (max_cpd (frequency_range s))) /\
     max_cpd (frequency_range s) = Fin 572848.323 /\
     cpd_to_days (max_cpd (frequency_range s))
     = Ok (min_period_days (frequency_range s))).
Proof.
  split; eexists; (split; [vm_compute; reflexivity|]);
    repeat split; vm_compute; reflexivity.
Qed.

(** X18.  In exact arithmetic the range search finds nothing in an
    inverted range, and widening the range never loses a result. *)
Theorem find_frequencies_in_range_monotone
        (freq_dict : cat_t (F := xreal)) (lo hi lo' hi' : Q) (prefix : key) :
  (hi < lo ->
   find_frequencies_in_range freq_dict (Fin lo) (Fin hi) prefix = []) /\
  (lo' <= lo -> hi <= hi' ->
   forall px,
     In px (find_frequencies_in_range freq_dict (Fin lo) (Fin hi) prefix) ->
     In px (find_frequencies_in_range freq_dict (Fin lo') (Fin hi') prefix)).
Proof.
  pose proof (find_frequencies_in_range_facts freq_dict (Fin lo) (Fin hi)
                                              prefix) as E.
  split.
  - intros L. rewrite E.
    erewrite filter_ext_in; [rewrite filter_false; reflexivity|].
    intros [keys x] _. cbn [snd]. unfold in_range.
    destruct x as [q| | |]; simpl; try reflexivity.
    destruct (Qle_bool lo q) eqn:A, (Qle_bool q hi) eqn:B; try reflexivity.
    apply Qle_bool_iff in A, B. lra.
  - intros L1 L2 px I.
    rewrite (find_frequencies_in_range_facts freq_dict (Fin lo') (Fin hi') prefix).
    rewrite E in I. apply in_map_iff in I as (py & Ep & I).
    apply in_map_iff. exists py. split; [exact Ep|].
    apply filter_In in I as [I R]. apply filter_In. split; [exact I|].
    unfold in_range in *. destruct (snd py) as [q| | |]; simpl in *;
      try discriminate.
    apply andb_true_iff in R as [A B]. apply Qle_bool_iff in A, B.
    apply andb_true_iff. split; apply Qle_bool_iff; lra.
Qed.

Lemma find_frequencies_in_range_monotone_witness :
  find_frequencies_in_range catalogueQ (Fin 2) (Fin 1) (KStr EmptyString) = [].
Proof.
  apply (proj1 (find_frequencies_in_range_monotone
                  catalogueQ 2 1 0 3 (KStr EmptyString))).
  reflexivity.
Defined.

(* ================================================================== *)
(** * The returned peak bands *)

Section DictMore.
Variables (K V : Type) (keq : K -> K -> bool).
Hypothesis keq_spec : forall a b, keq a b = true <-> a = b.

Lemma dict_set_In (k k' : K) (v v' : V) (d : dict K V) :
  In (k', v') (dict_set keq k v d) -> (k' = k /\ v' = v) \/ In (k', v') d.
Proof.
  induction d as [|[k0 v0] d IH]; simpl.
  - intros [E|[]]. injection E as <- <-. left. auto.
  - destruct (keq k k0) eqn:E.
    + apply keq_spec in E. subst k0.
      intros [I|I]; [injection I as <- <-; left; auto|right; right; exact I].
    + intros [I|I]; [right; left; exact I|].
      destruct (IH I) as [L|R]; [left; exact L|right; right; exact R].
Qed.

Lemma dict_get_In (k : K) (v : V) (d : dict K V) :
  dict_get keq k d = Some v -> In (k, v) d.
Proof.
  induction d as [|[k0 v0] d IH]; simpl; [discriminate|].
  destruct (keq k k0) eqn:E.
  - apply keq_spec in E. subst k0. intros I. injection I as <-. left.
    reflexivity.
  - intros G. right. apply IH, G.
Qed.

Lemma dict_set_NoDup (k : K) (v : V) (d : dict K V) :
  NoDup (dict_keys d) -> NoDup (dict_keys (dict_set keq k v d)).
Proof.
  induction d as [|[k0 v0] d IH]; simpl; intros ND.
  - constructor; [intros []|constructor].
  - apply NoDup_cons_iff in ND as [N0 ND].
    destruct (keq k k0) eqn:E; simpl.
    + constructor; assumption.
    + constructor; [|apply IH, ND].
      intros I. apply in_map_iff in I as ([k1 v1] & E1 & I). simpl in E1.
      subst k1. apply dict_set_In in I as [[-> _]|I].
      * rewrite (keq_refl keq keq_spec) in E. discriminate.
      * apply N0. apply in_map_iff. exists (k0, v1). auto.
Qed.

(** [dict(items)] of items with distinct keys keeps them as they are. *)
Lemma dict_of_items_distinct (l acc : dict K V) :
  NoDup (dict_keys (acc ++ l)) ->
  fold_left (fun d kv => dict_set keq (fst kv) (snd kv) d) l acc = acc ++ l.
Proof.
  revert acc. induction l as [|[k v] l IH]; intros acc ND; cbn [fold_left].
  - rewrite app_nil_r. reflexivity.
  - cbn [fst snd]. rewrite (dict_set_fresh keq keq_spec).
    + rewrite IH; rewrite <- app_assoc; [reflexivity|exact ND].
    + unfold dict_keys in ND. rewrite map_app in ND. simpl in ND.
      apply NoDup_remove_2 in ND. intros I. apply ND, in_or_app. auto.
Qed.
End DictMore.

Lemma foldM_invariant_in {A S : Type} (P : S -> Prop)
      (body : S -> A -> result S) (xs : list A) :
  (forall s x s', In x xs -> P s -> body s x = Ok s' -> P s') ->
  forall s s', P s -> foldM body xs s = Ok s' -> P s'.
Proof.
  induction xs as [|x xs IH]; simpl; intros Step s s' Ps E.
  - injection E as <-. exact Ps.
  - apply bind_Ok in E as (s1 & E1 & E2). eapply IH; [| |exact E2].
    + intros; eapply Step; eauto.
    + eapply Step; eauto.
Qed.

(** ** The stable descending sort *)

Section SortFacts.
Context {F : Type} `{PyFloat F}.

Lemma insert_desc_perm (x : string * F) (l : list (string * F)) :
  Permutation (insert_desc x l) (x :: l).
Proof.
  induction l as [|y l IH]; simpl; [reflexivity|].
  destruct (fltb (snd x) (snd y)); [|reflexivity].
  rewrite IH. apply perm_swap.
Qed.

Lemma sorted_desc_perm (l : list (string * F)) :
  Permutation (sorted_desc l) l.
Proof.
  induction l as [|x l IH]; simpl; [reflexivity|].
  rewrite insert_desc_perm. constructor. exact IH.
Qed.
End SortFacts.


Lemma insert_desc_sorted (x : string * xreal) (l : list (string * xreal)) :
  positive_entry x -> Forall positive_entry l ->
  StronglySorted not_below l -> StronglySorted not_below (insert_desc x l).
Proof.
  intros Px. induction l as [|y l IH]; intros Pl Sl; simpl.
  - constructor; constructor.
  - apply StronglySorted_inv in Sl as [Sl Fy].
    pose proof (Forall_inv Pl) as Py. apply Forall_inv_tail in Pl.
    change (fltb (snd x) (snd y)) with (xltb (snd x) (snd y)).
    destruct (xltb (snd x) (snd y)) eqn:L.
    + constructor; [apply IH; assumption|].
      apply Forall_forall. intros z Iz.
      apply (Permutation_in _ (insert_desc_perm x l)) in Iz.
      destruct Iz as [<-|Iz].
      * apply xltb_xleb, L.
      * rewrite Forall_forall in Fy. apply Fy, Iz.
    + constructor; [constructor; assumption|].
      assert (Ryx : xleb (snd y) (snd x) = true)
        by (apply xltb_total; assumption).
      constructor; [exact Ryx|].
      apply Forall_forall. intros z Iz.
      rewrite Forall_forall in Fy. unfold not_below.
      eapply xleb_trans; [apply Fy, Iz|exact Ryx].
Qed.

Lemma sorted_desc_sorted (l : list (string * xreal)) :
  Forall positive_entry l -> StronglySorted not_below (sorted_desc l).
Proof.
  induction l as [|x l IH]; intros Pl; simpl; [constructor|].
  pose proof (Forall_inv Pl) as Px. apply Forall_inv_tail in Pl.
  apply insert_desc_sorted; [exact Px| |apply IH, Pl].
  apply Forall_forall. intros z Iz.
  apply (Permutation_in _ (sorted_desc_perm l)) in Iz.
  rewrite Forall_forall in Pl. apply Pl, Iz.
Qed.

Lemma sorted_app_inv {A : Type} (R : A -> A -> Prop) (l1 l2 : list A) :
  StronglySorted R (l1 ++ l2) ->
  StronglySorted R l1 /\ forall x y, In x l1 -> In y l2 -> R x y.
Proof.
  induction l1 as [|a l1 IH]; simpl; intros S.
  - split; [constructor|]. intros x y [].
  - apply StronglySorted_inv in S as [S Fa]. destruct (IH S) as [S1 C].
    apply Forall_app in Fa as [F1 F2]. split; [constructor; assumption|].
    intros x y [<-|Ix] Iy; [|apply C; assumption].
    rewrite Forall_forall in F2. apply F2, Iy.
Qed.

Lemma sorted_map {A B : Type} (f : A -> B) (R : B -> B -> Prop) (l : list A) :
  StronglySorted (fun x y => R (f x) (f y)) l -> StronglySorted R (map f l).
Proof.
  induction 1 as [|a l S IH Fa]; simpl; constructor; [exact IH|].
  apply Forall_map. exact Fa.
Qed.

(** What the top-ten selection keeps of a band with distinct labels and
    positive values. *)
Lemma top10_exact (d : dict string xreal) :
  NoDup (dict_keys d) -> Forall positive_entry d ->
  top10 d = firstn 10 (sorted_desc d) /\
  NoDup (dict_keys (top10 d)) /\
  List.length (top10 d) = Nat.min 10 (List.length d) /\
  descending (map snd (top10 d)) /\
  (forall kv, In kv (top10 d) -> In kv d) /\
  (forall kv kv', In kv (top10 d) -> In kv' d -> ~ In kv' (top10 d) ->
                  fleb (snd kv') (snd kv) = true).
Proof.
  intros ND Pd.
  pose proof (sorted_desc_perm d) as Pm.
  pose proof (sorted_desc_sorted Pd) as Sd.
  assert (NDs : NoDup (dict_keys (sorted_desc d))).
  { eapply Permutation_NoDup; [|exact ND].
    unfold dict_keys. apply Permutation_map. symmetry. exact Pm. }
  rewrite <- (firstn_skipn 10 (sorted_desc d)) in Sd, NDs.
  assert (E : top10 d = firstn 10 (sorted_desc d)).
  { unfold top10, dict_of_items.
    rewrite (dict_of_items_distinct String.eqb string_eqb_spec); [reflexivity|].
    simpl app. unfold dict_keys in *. rewrite map_app in NDs.
    eapply NoDup_app_remove_r, NDs. }
  apply sorted_app_inv in Sd as [S1 C].
  rewrite E. split; [reflexivity|]. split.
  { unfold dict_keys in *. rewrite map_app in NDs.
    eapply NoDup_app_remove_r, NDs. }
  split.
  { rewrite length_firstn, (Permutation_length Pm). reflexivity. }
  split; [apply sorted_map, S1|]. split.
  - intros kv I. apply (Permutation_in _ Pm).
    rewrite <- (firstn_skipn 10 (sorted_desc d)). apply in_or_app. auto.
  - intros kv kv' I I' N. apply (C kv kv' I).
    apply (Permutation_in _ (Permutation_sym Pm)) in I'.
    rewrite <- (firstn_skipn 10 (sorted_desc d)) in I'.
    apply in_app_or in I' as [I'|I']; [contradiction|exact I'].
Qed.

(** ** The table built by the collecting loops, for any harmonic range *)


Lemma peak_step_valid (fu fd : Q) (lo hi mult k : Z)
      (peaks peaks' : peaks_t (F := xreal)) :
  In mult (range 1 5) -> In k (range lo hi) ->
  valid_table fu fd (lo, hi) peaks ->
  peak_step (Fin fd) (Fin (Qred (inject_Z mult * fu))) mult peaks k
  = Ok peaks' ->
  valid_table fu fd (lo, hi) peaks'.
Proof.
  intros Im Ik [Kp Vp] E.
  pose proof (peak_step_keys _ _ _ _ _ E) as K'.
  rewrite peak_step_Q in E. cbv zeta in E.
  set (a := Qred (alias_of (Qred (Qred (inject_Z mult * fu)
                                  + Qred (inject_Z k * fd))))) in E.
  assert (Ea : a == alias_of (combined fu fd (mult, k))).
  { unfold a, combined. cbn [fst snd]. rewrite Qred_correct.
    apply alias_of_comp. unred. reflexivity. }
  destruct (band_of_alias a) as [band|] eqn:B;
    [|injection E as <-; split; assumption].
  unfold peaks_assign in E.
  destruct (dict_get String.eqb band peaks) as [d|] eqn:G; [|discriminate].
  injection E as <-. split; [rewrite K'; exact Kp|].
  apply (dict_get_In String.eqb string_eqb_spec) in G.
  destruct (Vp _ _ G) as [NDd Vd].
  intros b d' I.
  apply (dict_set_In String.eqb string_eqb_spec) in I as [[-> ->]|I];
    [|apply Vp, I].
  split; [apply (dict_set_NoDup String.eqb string_eqb_spec), NDd|].
  intros label v I.
  apply (dict_set_In String.eqb string_eqb_spec) in I as [[-> ->]|I];
    [|apply Vd, I].
  exists mult, k, a. apply range_In in Im, Ik. cbn [fst snd].
  repeat split; try lia; assumption.
Qed.

Lemma collect_peaks_valid (fu fd : Q) (hr : Z * Z)
      (raw : peaks_t (F := xreal)) :
  collect_peaks (Fin fu) (Fin fd) hr = Ok raw -> valid_table fu fd hr raw.
Proof.
  unfold collect_peaks. destruct hr as [lo hi].
  apply (foldM_invariant_in (valid_table fu fd (lo, hi))).
  - intros s mult s' Im Ps E.
    change (of_int mult) with (Ok (Fin (inject_Z mult))) in E.
    cbv beta iota delta [bind] in E.
    change (fmul (Fin (inject_Z mult)) (Fin fu))
      with (Fin (Qred (inject_Z mult * fu))) in E.
    revert Ps E. apply (foldM_invariant_in (valid_table fu fd (lo, hi))).
    intros s1 k s2 Ik P1 E1. eapply peak_step_valid; eassumption.
  - split; [reflexivity|].
    intros b d I. unfold empty_peaks in I. simpl in I.
    repeat (destruct I as [I|I]; [injection I as <- <-; split;
                                  [constructor|intros ? ? []]|]).
    contradiction.
Qed.

Lemma pruned_In {F : Type} `{PyFloat F} (peaks : peaks_t) (b : string)
      (entries : dict string F) :
  In (b, entries) (pruned peaks) ->
  exists d, In (b, d) peaks /\ d <> [] /\ entries = top10 d.
Proof.
  unfold pruned. intros I. apply in_flat_map in I as ([b' d] & Ip & I).
  cbn [fst snd] in I. destruct d as [|x d]; [contradiction|].
  destruct I as [I|[]]. injection I as <- <-.
  exists (x :: d). split; [exact Ip|]. split; [discriminate|reflexivity].
Qed.

Lemma orbital_peaks_pruned (fu fd : Q) (hr : Z * Z)
      (res : peaks_t (F := xreal)) :
  calculate_orbital_peaks (Fin fu) (Fin fd) hr = Ok res ->
  exists raw, collect_peaks (Fin fu) (Fin fd) hr = Ok raw /\
              valid_table fu fd hr raw /\ res = pruned raw.
Proof.
  unfold calculate_orbital_peaks. intros E.
  apply bind_Ok in E as (raw & Eraw & E).
  pose proof (collect_peaks_valid _ _ _ Eraw) as V.
  rewrite prune_peaks_pruned in E
    by (rewrite (proj1 V); exact band_names_NoDup).
  injection E as <-. exists raw. auto.
Qed.

Lemma valid_band_positive (fu fd : Q) (hr : Z * Z) (b : string)
      (d : dict string xreal) :
  valid_band fu fd hr b d -> Forall positive_entry d.
Proof.
  intros [_ V]. apply Forall_forall. intros [label v] I.
  destruct (V _ _ I) as (mult & k & a & _ & _ & _ & -> & _ & B).
  unfold positive_entry. cbn [snd]. unfold band_of_alias in B.
  change (xltb (Fin 0) (Fin a)) with (Qltb 0 a).
  destruct (Qltb 0 a); [reflexivity|discriminate].
Qed.

Lemma band_of_alias_period (a : Q) (b : string) :
  band_of_alias a = Some b -> 0 < a /\ 1 / a <= 12.
Proof.
  unfold band_of_alias. destruct (Qltb 0 a) eqn:L; [|discriminate].
  apply Qltb_lt in L. intros B. split; [exact L|].
  destruct (band_of_intervals (Qred (1 / a))) as (_ & _ & _ & _ & _ & N).
  destruct (Qlt_le_dec 12 (1 / a)) as [G|G]; [|exact G].
  assert (E : band_of (Fin (Qred (1 / a))) = None)
    by (apply N; right; rewrite Qred_correct; exact G).
  congruence.
Qed.





(* ================================================================== *)
(** * The labels *)


Lemma str_injective (a b : Z) : str a = str b -> a = b.
Proof.
  unfold str. intros E.
  assert (N : forall z, Z.to_int z <> Decimal.Pos Decimal.Nil /\
                        Z.to_int z <> Decimal.Neg Decimal.Nil).
  { intros [|p|p]; simpl; split; try discriminate; intros I;
      injection I as I; apply (DecimalPos.Unsigned.to_uint_nonnil p I). }
  apply (f_equal NilZero.int_of_string) in E.
  rewrite !NilZero.isi in E by apply N.
  injection E as E. apply DecimalZ.to_int_inj, E.
Qed.

Lemma occurs_app (c : ascii) (s t : string) :
  occurs c (s ++ t) = occurs c s || occurs c t.
Proof.
  induction s as [|a s IH]; simpl; [reflexivity|].
  rewrite IH, orb_assoc. reflexivity.
Qed.

Lemma occurs_uint (c : ascii) (d : Decimal.uint) :
  digit c = false -> occurs c (NilEmpty.string_of_uint d) = false.
Proof.
  unfold digit. cbn [existsb]. rewrite !orb_false_iff.
  intros (E0 & E1 & E2 & E3 & E4 & E5 & E6 & E7 & E8 & E9 & _).
  induction d; cbn [NilEmpty.string_of_uint occurs];
    rewrite ?IHd, ?orb_false_r; auto.
Qed.

Lemma occurs_str (c : ascii) (z : Z) :
  digit c = false -> Ascii.eqb c "-" = false -> occurs c (str z) = false.
Proof.
  intros D M. unfold str, NilZero.string_of_int, NilZero.string_of_uint.
  assert (Z0 : occurs c "0" = false).
  { unfold digit in D. cbn [existsb] in D. apply orb_false_iff in D as [D _].
    simpl. rewrite D. reflexivity. }
  destruct (Z.to_int z) as [d|d]; cbn [occurs]; rewrite ?M;
    destruct d; try exact Z0; cbn [orb]; apply occurs_uint, D.
Qed.

Lemma occurs_str_signed (c : ascii) (z : Z) :
  digit c = false -> Ascii.eqb c "-" = false -> Ascii.eqb c "+" = false ->
  occurs c (str_signed z) = false.
Proof.
  intros D M P. unfold str_signed. destruct (z <? 0)%Z.
  - apply occurs_str; assumption.
  - cbn [append occurs]. rewrite P. apply occurs_str; assumption.
Qed.

(** Two strings cut at the first occurrence of a character. *)
Lemma split_at (c : ascii) (s1 s2 r1 r2 : string) :
  occurs c s1 = false -> occurs c s2 = false ->
  (s1 ++ String c r1 = s2 ++ String c r2)%string -> s1 = s2 /\ r1 = r2.
Proof.
  revert s2. induction s1 as [|a s1 IH]; intros [|b s2]; simpl; intros O1 O2 E.
  - injection E as <-. auto.
  - injection E as <- _. rewrite Ascii.eqb_refl in O2. discriminate.
  - injection E as <- _. rewrite Ascii.eqb_refl in O1. discriminate.
  - injection E as <- E. apply orb_false_iff in O1 as [_ O1], O2 as [_ O2].
    destruct (IH _ O1 O2 E) as [<- <-]. auto.
Qed.

Lemma str_signed_injective (a b : Z) : str_signed a = str_signed b -> a = b.
Proof.
  unfold str_signed.
  assert (Neg : forall z, (z < 0)%Z -> exists s, str z = String "-" s).
  { intros [|p|p] L; try lia. unfold str. simpl. eauto. }
  destruct (Z.ltb_spec a 0) as [La|La], (Z.ltb_spec b 0) as [Lb|Lb]; intros E.
  - apply str_injective, E.
  - destruct (Neg a La) as [s Es]. rewrite Es in E. discriminate.
  - destruct (Neg b Lb) as [s Es]. rewrite Es in E. discriminate.
  - injection E as E. apply str_injective, E.
Qed.

(** X21.  The labels determine the pair: two signals, or two peaks, with
    the same label have the same [n] and [m] (the same multiplier and
    harmonic), so entries of distinct pairs never overwrite one another. *)
Theorem labels_injective (a b a' b' : Z) :
  (signal_label a b = signal_label a' b' -> a = a' /\ b = b') /\
  (peak_label a b = peak_label a' b' -> a = a' /\ b = b').
Proof.
  split; intros E.
  - unfold signal_label in E. cbn [append] in E. injection E as E.
    change (str a ++ String "_" (String "m" (str b))
            = str a' ++ String "_" (String "m" (str b')))%string in E.
    apply split_at in E as [Ea Eb];
      try (apply occurs_str; reflexivity).
    injection Eb as Eb. split; apply str_injective; assumption.
  - unfold peak_label in E.
    change (str a ++ String "f" ("_u" ++ str_signed b ++ "f_d")
            = str a' ++ String "f" ("_u" ++ str_signed b' ++ "f_d"))%string
      in E.
    apply split_at in E as [Ea Eb];
      try (apply occurs_str; reflexivity).
    cbn [append] in Eb. injection Eb as Eb.
    change (str_signed b ++ String "f" "_d"
            = str_signed b' ++ String "f" "_d")%string in Eb.
    apply split_at in Eb as [Eb _];
      try (apply occurs_str_signed; reflexivity).
    split; [apply str_injective, Ea|apply str_signed_injective, Eb].
Qed.

Lemma labels_injective_witness :
  ((-2)%Z = (-2)%Z /\ 1%Z = 1%Z) /\ (2%Z = 2%Z /\ (-6)%Z = (-6)%Z).
Proof.
  split.
  - apply (proj1 (labels_injective (-2) 1 (-2) 1)). reflexivity.
  - apply (proj2 (labels_injective 2 (-6) 2 (-6))). reflexivity.
Defined.
